(** * AnimatedGridBackground: a model of the grid animation component

    The component of [src/components/AnimatedGridBackground.jsx] keeps two
    grids of cells (foreground and background), and for each of them a set of
    active ids that two repeating timers grow and deferred callbacks shrink.

    The model follows the source:
    - a JavaScript [Set] is an insertion-ordered list without repetition
      ([forEach] visits the ids in insertion order, one random draw per id);
    - [Math.random()] reads a tape of rationals, one cell per call; the tape is
      threaded through the code by a small state monad, and the arithmetic on
      a draw ([Math.floor(q * n)], the comparisons with 0.3) is exact; a
      probability is not a notion of the model, the draw that decides is;
    - the grid dimensions and the two caps are counts ([nat]); the percentage
      of curved cells is an integer ([Z]);
    - the timers are a transition system: the repeating interval, the queue of
      pending [setTimeout] callbacks with the snapshot each one captured, and
      the cleanup of the effect. *)

From Stdlib Require Import List String Ascii Bool Arith ZArith QArith Qround Lia.
From Stdlib Require Import DecimalString DecimalNat.
Import ListNotations.

Open Scope nat_scope.

(* ================================================================== *)
(** * Part I: definitions *)
(* ================================================================== *)

(** ** JavaScript [Set], in insertion order *)

Module JSSet.
Section Ops.
Context {A : Type} (eq_dec : forall x y : A, {x = y} + {x <> y}).

(** [s.has(x)] *)
Fixpoint has (x : A) (s : list A) : bool :=
  match s with
  | [] => false
  | y :: s' => if eq_dec x y then true else has x s'
  end.

(** [s.add(x)]: a new member goes last, an old one keeps its place. *)
Definition add (x : A) (s : list A) : list A :=
  if has x s then s else s ++ [x].

(** [s.delete(x)] *)
Fixpoint delete (x : A) (s : list A) : list A :=
  match s with
  | [] => []
  | y :: s' => if eq_dec x y then delete x s' else y :: delete x s'
  end.

(** [s.size] *)
Definition size (s : list A) : nat := List.length s.
End Ops.
End JSSet.

(** The sets of ids are sets of strings, [curvedIndices] is a set of
    integers. *)
Definition IdSet := list string.
Definition has_id : string -> IdSet -> bool := JSSet.has string_dec.
Definition add_id : string -> IdSet -> IdSet := JSSet.add string_dec.
Definition delete_id : string -> IdSet -> IdSet := JSSet.delete string_dec.

(** ** [Math.random()] and the monad that threads it *)

Record Rng := mkRng { tape : nat -> Q; cursor : nat }.

Definition M (A : Type) : Type := Rng -> A * Rng.

Definition ret {A} (a : A) : M A := fun g => (a, g).

Definition bind {A B} (m : M A) (k : A -> M B) : M B :=
  fun g => let (a, g') := m g in k a g'.

Notation "x <- m ;; k" := (bind m (fun x => k))
  (at level 61, m at next level, right associativity).

(** [Math.random()] *)
Definition random : M Q :=
  fun g => (tape g (cursor g), mkRng (tape g) (S (cursor g))).

(** Every draw of [Math.random()] lies in [0, 1). *)
Definition unit_draw (q : Q) : Prop := (0 <= q)%Q /\ (q < 1)%Q.
Definition validRng (g : Rng) : Prop := forall n, unit_draw (tape g n).

(** The tape that starts with the draws of [l] and goes on with zeros. *)
Definition tapeOf (l : list Q) : nat -> Q := fun n => nth n l 0%Q.

(** [Math.floor(q * n)] *)
Definition floorMul (q : Q) (n : Z) : Z := Qfloor (q * inject_Z n).

(** [q < 0.3] and [q > 0.3] *)
Definition below03 (q : Q) : bool := if Qlt_le_dec q (3 # 10) then true else false.
Definition above03 (q : Q) : bool := if Qlt_le_dec (3 # 10) q then true else false.

(** ** Arrays *)

(** [arr[i]]: [undefined] (here [None]) outside the array. *)
Definition index {A} (arr : list A) (i : Z) : option A :=
  if (i <? 0)%Z then None else nth_error arr (Z.to_nat i).

(** [arr.splice(i, 1)]: the removed element, if any, and the array that is
    left.  A negative [i] counts from the end and stops at the start; an [i]
    past the end removes nothing. *)
Definition splice1 {A} (i : Z) (arr : list A) : option A * list A :=
  let len := Z.of_nat (List.length arr) in
  let start := if (i <? 0)%Z then Z.max (len + i) 0 else Z.min i len in
  let k := Z.to_nat start in
  (nth_error arr k, firstn k arr ++ skipn (S k) arr).

(** [for (let i = 0; i < n; i++) s = body(i, s)] over the state [s]. *)
Fixpoint forRange {S : Type} (range : list nat) (body : nat -> S -> M S) (s : S) : M S :=
  match range with
  | [] => ret s
  | i :: range' => s' <- body i s ;; forRange range' body s'
  end.

(** ** The palette *)

Definition DEFAULT_COLORS : list string :=
  [ "from-blue-500/80 to-blue-600/80"%string;
    "from-cyan-500/80 to-cyan-600/80"%string;
    "from-slate-400/80 to-slate-500/80"%string;
    "from-blue-400/80 to-cyan-500/80"%string;
    "from-cyan-400/80 to-blue-500/80"%string ].

(** [getRandomFrom(arr)] *)
Definition getRandomFrom {A} (arr : list A) : M (option A) :=
  q <- random ;;
  ret (index arr (floorMul q (Z.of_nat (List.length arr)))).

(** ** Cells and their ids *)

(** A number inside a template literal: its decimal digits. *)
Definition showNat (n : nat) : string := NilEmpty.string_of_uint (Nat.to_uint n).

(** [`${layer}-${row}-${col}`] *)
Definition cellId (layer : string) (row col : nat) : string :=
  (layer ++ "-" ++ showNat row ++ "-" ++ showNat col)%string.

(** A string without a dash, as the digits of a number are. *)
Fixpoint dashFree (s : string) : Prop :=
  match s with
  | EmptyString => True
  | String c s' => c <> "-"%char /\ dashFree s'
  end.

Module Fg.
Record Square := mkSquare
  { id : string; row : nat; col : nat; isCurved : bool; color : option string }.
End Fg.

Module Bg.
(** A background cell has no [isCurved] property. *)
Record Square := mkSquare
  { id : string; row : nat; col : nat; color : option string }.
End Bg.

(** The props of the component the model uses. *)
Record Props := mkProps
  { rows : nat; cols : nat; curvedPercentage : Z;
    maxActiveSquares : nat;
    backgroundRows : nat; backgroundCols : nat;
    maxBackgroundActive : nat }.

Definition defaultProps : Props := mkProps 12 20 5 8 24 40 3.

(** ** The layout effect *)

Module Layout.

Definition totalSquares (p : Props) : Z := Z.of_nat (rows p * cols p).

(** [Math.floor((totalSquares * curvedPercentage) / 100)] *)
Definition curvedCount (p : Props) : Z :=
  (totalSquares p * curvedPercentage p / 100)%Z.

(** [while (curvedIndices.size < curvedCount)
       curvedIndices.add(Math.floor(Math.random() * totalSquares))]
    The loop has no bound in the source; [fuel] bounds the number of
    iterations here and [None] says that it ran out. *)
Fixpoint sampleCurved (fuel : nat) (total count : Z) (curvedIndices : list Z)
  : M (option (list Z)) :=
  if (Z.of_nat (JSSet.size curvedIndices) <? count)%Z then
    match fuel with
    | O => ret None
    | S fuel' =>
        q <- random ;;
        sampleCurved fuel' total count (JSSet.add Z.eq_dec (floorMul q total) curvedIndices)
    end
  else ret (Some curvedIndices).

(** The body of the inner foreground loop; the state is
    [(initialSquares, index)]. *)
Definition pushFg (curvedIndices : list Z) (row col : nat)
    (st : list Fg.Square * Z) : M (list Fg.Square * Z) :=
  c <- getRandomFrom DEFAULT_COLORS ;;
  ret (fst st ++ [Fg.mkSquare (cellId "fg" row col) row col
                    (JSSet.has Z.eq_dec (snd st) curvedIndices) c],
       (snd st + 1)%Z).

Definition fgSquares (nrows ncols : nat) (curvedIndices : list Z) : M (list Fg.Square) :=
  st <- forRange (seq 0 nrows)
          (fun row => forRange (seq 0 ncols) (pushFg curvedIndices row))
          ([], 0%Z) ;;
  ret (fst st).

Definition pushBg (row col : nat) (acc : list Bg.Square) : M (list Bg.Square) :=
  c <- getRandomFrom DEFAULT_COLORS ;;
  ret (acc ++ [Bg.mkSquare (cellId "bg" row col) row col c]).

Definition bgSquares (nrows ncols : nat) : M (list Bg.Square) :=
  forRange (seq 0 nrows) (fun row => forRange (seq 0 ncols) (pushBg row)) [].

(** The whole effect: both layouts, or [None] when the sampling loop ran
    out of fuel. *)
Definition generate (fuel : nat) (p : Props)
  : M (option (list Fg.Square * list Bg.Square)) :=
  r <- sampleCurved fuel (totalSquares p) (curvedCount p) [] ;;
  match r with
  | None => ret None
  | Some curvedIndices =>
      fg <- fgSquares (rows p) (cols p) curvedIndices ;;
      bg <- bgSquares (backgroundRows p) (backgroundCols p) ;;
      ret (Some (fg, bg))
  end.

(** The [isCurved] of the [j]-th cell pushed from the index [k] on. *)
Definition curvedAt (curvedIndices : list Z) (k : Z) (j : nat) : bool :=
  JSSet.has Z.eq_dec (k + Z.of_nat j)%Z curvedIndices.

(** A background cell as the loop makes it: a positional id, and a color
    of the palette unless the draw fell outside of it. *)
Definition bgWellFormed (sq : Bg.Square) : Prop :=
  Bg.id sq = cellId "bg" (Bg.row sq) (Bg.col sq) /\
  forall c, Bg.color sq = Some c -> In c DEFAULT_COLORS.

(** The indices the first [n] draws of the sampling loop produce. *)
Fixpoint drawnIndices (n : nat) (total : Z) (g : Rng) : list Z :=
  match n with
  | O => []
  | S n' => floorMul (tape g (cursor g)) total
            :: drawnIndices n' total (mkRng (tape g) (S (cursor g)))
  end.

(** The number of distinct indices among them. *)
Definition distinctHits (n : nat) (total : Z) (g : Rng) : nat :=
  JSSet.size (fold_left (fun s i => JSSet.add Z.eq_dec i s) (drawnIndices n total g) []).

End Layout.

(** ** The deferred deactivation step *)

(** The updater the [setTimeout] callback hands to the state setter:
    [newActiveIds.forEach((id) =>
       { if (!prev.has(id) || Math.random() > 0.3) updated.delete(id); })].
    [||] draws only when [prev] has the id. *)
Fixpoint deactivateLoop (newActiveIds : IdSet) (prev updated : IdSet) : M IdSet :=
  match newActiveIds with
  | [] => ret updated
  | i :: rest =>
      if negb (has_id i prev) then deactivateLoop rest prev (delete_id i updated)
      else
        q <- random ;;
        if above03 q then deactivateLoop rest prev (delete_id i updated)
        else deactivateLoop rest prev updated
  end.

Definition deactivate (newActiveIds prev : IdSet) : M IdSet :=
  deactivateLoop newActiveIds prev prev.

(** ** The foreground activation round *)

Module Foreground.

Definition inactiveSquares (squares : list Fg.Square) (activeSquares : IdSet) :=
  filter (fun sq => negb (has_id (Fg.id sq) activeSquares)) squares.

Definition inactiveCurved (squares : list Fg.Square) (activeSquares : IdSet) :=
  filter (fun sq => Fg.isCurved sq) (inactiveSquares squares activeSquares).

Definition inactiveRegular (squares : list Fg.Square) (activeSquares : IdSet) :=
  filter (fun sq => negb (Fg.isCurved sq)) (inactiveSquares squares activeSquares).

(** [Math.min(Math.floor(Math.random() * 3) + 1,
             maxActiveSquares - activeSquares.size)] *)
Definition numToActivate (p : Props) (activeSquares : IdSet) (q : Q) : Z :=
  Z.min (floorMul q 3 + 1)
        (Z.of_nat (maxActiveSquares p) - Z.of_nat (JSSet.size activeSquares)).

(** The [for] loop of the regular path, [n] iterations to go. *)
Fixpoint activateLoop (n : nat) (inactiveRegular : list Fg.Square)
    (newActiveIds : IdSet) : M (list Fg.Square * IdSet) :=
  match n with
  | O => ret (inactiveRegular, newActiveIds)
  | S n' =>
      match inactiveRegular with
      | [] => activateLoop n' inactiveRegular newActiveIds
      | _ :: _ =>
          q <- random ;;
          let randomIndex := floorMul q (Z.of_nat (List.length inactiveRegular)) in
          let (selectedSquare, rest) := splice1 randomIndex inactiveRegular in
          match selectedSquare with
          | Some sq => activateLoop n' rest (add_id (Fg.id sq) newActiveIds)
          | None => activateLoop n' rest newActiveIds
          end
      end
  end.

(** "Activate regular squares more frequently" *)
Definition regularPath (p : Props) (inactiveRegular : list Fg.Square)
    (activeSquares newActiveIds : IdSet) : M IdSet :=
  match inactiveRegular with
  | [] => ret newActiveIds
  | _ :: _ =>
      q <- random ;;
      r <- activateLoop (Z.to_nat (numToActivate p activeSquares q))
             inactiveRegular newActiveIds ;;
      ret (snd r)
  end.

(** "Activate circles less frequently (30% chance)" *)
Definition curvedPath (inactiveCurved : list Fg.Square) (newActiveIds : IdSet) : M IdSet :=
  match inactiveCurved with
  | [] => ret newActiveIds
  | _ :: _ =>
      q <- random ;;
      if below03 q then
        q' <- random ;;
        match index inactiveCurved (floorMul q' (Z.of_nat (List.length inactiveCurved))) with
        | Some sq => ret (add_id (Fg.id sq) newActiveIds)
        | None => ret newActiveIds
        end
      else ret newActiveIds
  end.

(** The interval callback up to [setActiveSquares(newActiveIds)]: the set
    it commits, which is also the snapshot its timeout captures. *)
Definition tick (p : Props) (squares : list Fg.Square) (activeSquares : IdSet) : M IdSet :=
  s <- regularPath p (inactiveRegular squares activeSquares) activeSquares activeSquares ;;
  curvedPath (inactiveCurved squares activeSquares) s.

End Foreground.

(** ** The background activation round *)

Module Background.

Definition inactive (backgroundSquares : list Bg.Square) (active : IdSet) :=
  filter (fun sq => negb (has_id (Bg.id sq) active)) backgroundSquares.

(** [Math.min(Math.floor(Math.random() * 2) + 1,
             maxBackgroundActive - activeBackgroundSquares.size)] *)
Definition numToActivate (p : Props) (active : IdSet) (q : Q) : Z :=
  Z.min (floorMul q 2 + 1)
        (Z.of_nat (maxBackgroundActive p) - Z.of_nat (JSSet.size active)).

(** The [for] loop; [break] leaves it when the pool is empty. *)
Fixpoint activateLoop (n : nat) (inactive : list Bg.Square)
    (newActiveIds : IdSet) : M IdSet :=
  match n with
  | O => ret newActiveIds
  | S n' =>
      match inactive with
      | [] => ret newActiveIds
      | _ :: _ =>
          q <- random ;;
          let randomIndex := floorMul q (Z.of_nat (List.length inactive)) in
          let (selected, rest) := splice1 randomIndex inactive in
          match selected with
          | Some sq => activateLoop n' rest (add_id (Bg.id sq) newActiveIds)
          | None => activateLoop n' rest newActiveIds
          end
      end
  end.

(** The interval callback: [None] is the early [return] (nothing is
    committed and no timeout is set), [Some] the committed set. *)
Definition tick (p : Props) (backgroundSquares : list Bg.Square) (active : IdSet)
  : M (option IdSet) :=
  match inactive backgroundSquares active with
  | [] => ret None
  | pool =>
      q <- random ;;
      s <- activateLoop (Z.to_nat (numToActivate p active q)) pool active ;;
      ret (Some s)
  end.

End Background.

(** ** The timers of one layer *)

Module Timers.

(** What one animation effect owns: the state it sets, whether its
    repeating interval is live, and the snapshots captured by the
    [setTimeout] callbacks that have not fired yet, oldest first (they all
    have the same delay). *)
Record Layer := mkLayer
  { active : IdSet; intervalLive : bool; pending : list IdSet }.

(** On mount: [useState(() => new Set())], and the effect sets the
    interval. *)
Definition mounted : Layer := mkLayer [] true [].

Inductive Event :=
| Tick        (* the interval fires *)
| Timeout     (* the oldest pending deactivation callback fires *)
| Teardown.   (* the component unmounts: the cleanup runs [clearInterval] *)

(** A round is a function from the current set to the committed one, or to
    [None] when it commits nothing.  When the state changes the effect runs
    again (cleanup, then a new interval that sees the new state): the
    interval stays live and reads the current set. *)
Definition step (round : IdSet -> M (option IdSet)) (e : Event) (l : Layer) : M Layer :=
  match e with
  | Tick =>
      if intervalLive l then
        r <- round (active l) ;;
        match r with
        | Some newActiveIds =>
            ret (mkLayer newActiveIds true (pending l ++ [newActiveIds]))
        | None => ret l
        end
      else ret l
  | Timeout =>
      match pending l with
      | [] => ret l
      | newActiveIds :: rest =>
          updated <- deactivate newActiveIds (active l) ;;
          ret (mkLayer updated (intervalLive l) rest)
      end
  | Teardown => ret (mkLayer (active l) false (pending l))
  end.

Fixpoint run (round : IdSet -> M (option IdSet)) (es : list Event) (l : Layer) : M Layer :=
  match es with
  | [] => ret l
  | e :: es' => l' <- step round e l ;; run round es' l'
  end.

Definition fgRound (p : Props) (squares : list Fg.Square) : IdSet -> M (option IdSet) :=
  fun a => s <- Foreground.tick p squares a ;; ret (Some s).

Definition bgRound (p : Props) (backgroundSquares : list Bg.Square)
  : IdSet -> M (option IdSet) :=
  Background.tick p backgroundSquares.

End Timers.

(** ** The renderer and the state of the component *)

Module Render.

Inductive shapeVariant := Regular | Rounded.

(** [square.isCurved ? "rounded-full" : "rounded-none"] *)
Definition fgShapeClass (sq : Fg.Square) : string :=
  if Fg.isCurved sq then "rounded-full" else "rounded-none".

(** A color inside a template literal. *)
Definition showColor (c : option string) : string :=
  match c with Some s => s | None => "undefined" end.

(** The [className] of a background cell: of the [motion.div] when it is
    active, of the plain [div] otherwise. *)
Definition bgClassName (isActive : bool) (sq : Bg.Square) : string :=
  if isActive
  then ("w-full h-full bg-gradient-to-br " ++ showColor (Bg.color sq) ++ " shadow-lg")%string
  else "w-full h-full border border-cyan-900/20 bg-background/70 rounded-none".

(** Is [sub] a substring of [s]? *)
Fixpoint mentions (sub s : string) : bool :=
  if String.prefix sub s then true
  else match s with
       | EmptyString => false
       | String _ s' => mentions sub s'
       end.

(** The shape a class string gives a tile: rounded only with
    [rounded-full]. *)
Definition shapeOfClass (cls : string) : shapeVariant :=
  if mentions "rounded-full" cls then Rounded else Regular.

Definition fgShape (sq : Fg.Square) : shapeVariant := shapeOfClass (fgShapeClass sq).
Definition bgShape (isActive : bool) (sq : Bg.Square) : shapeVariant :=
  shapeOfClass (bgClassName isActive sq).

(** [activeSquares.has(square.id)] *)
Definition fgIsActive (activeSquares : IdSet) (sq : Fg.Square) : bool :=
  has_id (Fg.id sq) activeSquares.

End Render.

Module Component.

(** The four [useState] cells. *)
Record State := mkState
  { squares : list Fg.Square; activeSquares : IdSet;
    backgroundSquares : list Bg.Square; activeBackgroundSquares : IdSet }.

(** First render. *)
Definition initial : State := mkState [] [] [] [].

(** The layout effect calls [setSquares] and [setBackgroundSquares] and
    nothing else. *)
Definition layoutEffect (fuel : nat) (p : Props) (st : State) : M (option State) :=
  r <- Layout.generate fuel p ;;
  match r with
  | None => ret None
  | Some (fg, bg) =>
      ret (Some (mkState fg (activeSquares st) bg (activeBackgroundSquares st)))
  end.

(** Does an id match a cell of the foreground layout? *)
Definition matchesCell (i : string) (sqs : list Fg.Square) : bool :=
  existsb (fun sq => if string_dec i (Fg.id sq) then true else false) sqs.

End Component.

(** ** What the renderer draws *)

Module View.

(** The overlay of an active foreground cell: the [motion.div], with its
    [className] and the [boxShadow] of its [style]. *)
Record Overlay := mkOverlay { className : string; boxShadow : string }.

(** A foreground cell: the [div] with its [key], the [className] of the
    base tile, and the overlay when [isActive] holds. *)
Record FgTile := mkFgTile
  { key : string; base : string; overlay : option Overlay }.

Definition fgBase (sq : Fg.Square) : string :=
  ("w-full h-full border border-cyan-900/30 bg-background/50 transition-all duration-200 "
   ++ Render.fgShapeClass sq)%string.

Definition fgOverlay (sq : Fg.Square) : Overlay :=
  mkOverlay
    ("absolute inset-0 bg-gradient-to-br " ++ Render.showColor (Fg.color sq)
     ++ " shadow-lg " ++ Render.fgShapeClass sq)%string
    (if Fg.isCurved sq
     then "0 0 20px rgba(6, 182, 212, 0.5)"
     else "0 0 15px rgba(59, 130, 246, 0.4)")%string.

Definition fgTile (activeSquares : IdSet) (sq : Fg.Square) : FgTile :=
  mkFgTile (Fg.id sq) (fgBase sq)
    (if Render.fgIsActive activeSquares sq then Some (fgOverlay sq) else None).

(** [squares.map((square) => ...)] *)
Definition foreground (squares : list Fg.Square) (activeSquares : IdSet) : list FgTile :=
  map (fgTile activeSquares) squares.

(** The overlays that are drawn. *)
Definition overlays (tiles : list FgTile) : list Overlay :=
  flat_map (fun t => match overlay t with Some o => [o] | None => [] end) tiles.

(** A background cell: the [AnimatePresence] with its [key], and inside it
    either the [motion.div] or the plain [div]. *)
Record BgTile := mkBgTile
  { bgKey : string; isMotion : bool; bgClass : string }.

(** [activeBackgroundSquares.has(square.id)] *)
Definition bgIsActive (active : IdSet) (sq : Bg.Square) : bool :=
  has_id (Bg.id sq) active.

Definition bgTile (active : IdSet) (sq : Bg.Square) : BgTile :=
  mkBgTile (Bg.id sq) (bgIsActive active sq)
    (Render.bgClassName (bgIsActive active sq) sq).

(** [backgroundSquares.map((square) => ...)] *)
Definition background (backgroundSquares : list Bg.Square) (active : IdSet)
  : list BgTile :=
  map (bgTile active) backgroundSquares.

(** The [motion.div]s that are drawn. *)
Definition motions (tiles : list BgTile) : list BgTile :=
  filter isMotion tiles.

End View.

(** ** Notions the invariants of the foreground use *)

Module Kind.

(** Is [x] the id of a regular (not curved) cell of the layout? *)
Definition isRegularId (squares : list Fg.Square) (x : string) : bool :=
  existsb (fun sq => if string_dec x (Fg.id sq) then negb (Fg.isCurved sq) else false)
    squares.

(** The active ids of regular cells. *)
Definition regularActive (squares : list Fg.Square) (active : IdSet) : IdSet :=
  filter (isRegularId squares) active.

(** The curved cells of the layout. *)
Definition curvedCells (squares : list Fg.Square) : list Fg.Square :=
  filter Fg.isCurved squares.

End Kind.

(* ================================================================== *)
(** * Part II: properties *)
(* ================================================================== *)

(** ** Sets *)

Section JSSetFacts.
Context {A : Type} (eq_dec : forall x y : A, {x = y} + {x <> y}).

Lemma has_In (x : A) (s : list A) : JSSet.has eq_dec x s = true <-> In x s.
Proof.
  induction s as [|y s IH]; simpl.
  - split; [discriminate | tauto].
  - destruct (eq_dec x y) as [->|ne].
    + split; auto.
    + rewrite IH. split; [auto | intros [e|i]; [congruence | exact i]].
Qed.

Lemma has_false_In (x : A) (s : list A) : JSSet.has eq_dec x s = false <-> ~ In x s.
Proof.
  rewrite <- has_In. destruct (JSSet.has eq_dec x s); split; congruence.
Qed.

Lemma add_app (x : A) (s : list A) :
  JSSet.add eq_dec x s = s ++ (if JSSet.has eq_dec x s then [] else [x]).
Proof.
  unfold JSSet.add. destruct (JSSet.has eq_dec x s); [now rewrite app_nil_r | reflexivity].
Qed.

Lemma add_In (x y : A) (s : list A) : In y (JSSet.add eq_dec x s) <-> y = x \/ In y s.
Proof.
  rewrite add_app, in_app_iff.
  destruct (JSSet.has eq_dec x s) eqn:E; simpl.
  - apply has_In in E. split; [tauto | intros [->|H]; auto].
  - split; [intros [H|[H|[]]]; auto | intros [H|H]; auto].
Qed.

Lemma add_NoDup (x : A) (s : list A) : NoDup s -> NoDup (JSSet.add eq_dec x s).
Proof.
  intros nd. unfold JSSet.add. destruct (JSSet.has eq_dec x s) eqn:E; [exact nd|].
  apply has_false_In in E.
  apply NoDup_app; [exact nd | repeat constructor; simpl; tauto |].
  intros a Ha [<-|[]]. exact (E Ha).
Qed.

Lemma add_size_le (x : A) (s : list A) :
  JSSet.size (JSSet.add eq_dec x s) <= S (JSSet.size s).
Proof.
  unfold JSSet.size. rewrite add_app, length_app.
  destruct (JSSet.has eq_dec x s); simpl; lia.
Qed.

Lemma add_size_new (x : A) (s : list A) :
  ~ In x s -> JSSet.size (JSSet.add eq_dec x s) = S (JSSet.size s).
Proof.
  intros H. apply has_false_In in H. unfold JSSet.size, JSSet.add.
  rewrite H, length_app. simpl. lia.
Qed.

Lemma delete_In (x y : A) (s : list A) :
  In y (JSSet.delete eq_dec x s) <-> y <> x /\ In y s.
Proof.
  induction s as [|z s IH]; simpl; [tauto|].
  destruct (eq_dec x z) as [->|ne]; simpl; rewrite IH.
  - split; [tauto | intros [n [e|i]]; [congruence | tauto]].
  - split; [intros [e|[n i]]; [subst; split; auto; congruence | tauto] | tauto].
Qed.

Lemma delete_length (x : A) (s : list A) :
  List.length (JSSet.delete eq_dec x s) <= List.length s.
Proof.
  induction s as [|z s IH]; simpl; [lia|].
  destruct (eq_dec x z); simpl; lia.
Qed.

Lemma delete_NoDup (x : A) (s : list A) : NoDup s -> NoDup (JSSet.delete eq_dec x s).
Proof.
  induction 1 as [|z s nin nd IH]; simpl; [constructor|].
  destruct (eq_dec x z); [exact IH|].
  constructor; [|exact IH]. rewrite delete_In. tauto.
Qed.
End JSSetFacts.

(** ** Random draws *)

Lemma floorMul_range (q : Q) (n : Z) :
  unit_draw q -> (0 < n)%Z -> (0 <= floorMul q n < n)%Z.
Proof.
  intros [q0 q1] npos. unfold floorMul. split.
  - change 0%Z with (Qfloor 0). apply Qfloor_resp_le.
    apply Qmult_le_0_compat; [exact q0|].
    change 0%Q with (inject_Z 0). rewrite <- Zle_Qle. lia.
  - rewrite Zlt_Qlt. eapply Qle_lt_trans; [apply Qfloor_le|].
    assert (0 < inject_Z n)%Q as npos'
      by (change 0%Q with (inject_Z 0); rewrite <- Zlt_Qlt; exact npos).
    setoid_replace (inject_Z n) with (1 * inject_Z n)%Q at 2 by ring.
    apply Qmult_lt_compat_r; assumption.
Qed.

Lemma floorMul_le (q : Q) (n : Z) :
  unit_draw q -> (0 < n)%Z -> (floorMul q n + 1 <= n)%Z.
Proof. intros u npos. pose proof (floorMul_range q n u npos). lia. Qed.

Lemma validRng_step (g : Rng) : validRng g -> validRng (mkRng (tape g) (S (cursor g))).
Proof. intros v n. exact (v n). Qed.

Lemma validRng_tape (g g' : Rng) : tape g' = tape g -> validRng g -> validRng g'.
Proof. intros e v n. rewrite e. exact (v n). Qed.

Lemma tapeOf_valid (l : list Q) (c : nat) :
  Forall unit_draw l -> validRng (mkRng (tapeOf l) c).
Proof.
  intros fa n. simpl. unfold tapeOf. revert n.
  induction fa as [|q l u fa IH]; intros [|n]; simpl; auto;
    unfold unit_draw, Qle, Qlt; simpl; lia.
Qed.

(** ** Ids *)

Lemma string_of_uint_dashFree (d : Decimal.uint) : dashFree (NilEmpty.string_of_uint d).
Proof.
  induction d; simpl; auto; split; auto; discriminate.
Qed.

Lemma showNat_dashFree (n : nat) : dashFree (showNat n).
Proof. apply string_of_uint_dashFree. Qed.

Lemma showNat_inj (n m : nat) : showNat n = showNat m -> n = m.
Proof.
  unfold showNat. intros e.
  apply Unsigned.to_uint_inj.
  assert (Some (Nat.to_uint n) = Some (Nat.to_uint m)) as H
    by (rewrite <- !NilEmpty.usu, e; reflexivity).
  now injection H.
Qed.

Lemma append_inv_head (a x y : string) : (a ++ x = a ++ y)%string -> x = y.
Proof.
  induction a as [|c a IH]; simpl; [auto|]. intros [= e]. auto.
Qed.

Lemma dash_split_inj (a a' b b' : string) :
  dashFree a -> dashFree a' ->
  (a ++ "-" ++ b = a' ++ "-" ++ b')%string -> a = a' /\ b = b'.
Proof.
  revert a'. induction a as [|c a IH]; intros [|c' a'] da da'; simpl in *.
  - intros [= e]. auto.
  - intros [= e _]. destruct da' as [ne _]. congruence.
  - intros [= e _]. destruct da as [ne _]. congruence.
  - intros [= e1 e2]. destruct da as [_ da], da' as [_ da'].
    destruct (IH a' da da' e2) as [-> ->]. subst. auto.
Qed.

Lemma cellId_inj (layer : string) (r c r' c' : nat) :
  cellId layer r c = cellId layer r' c' -> r = r' /\ c = c'.
Proof.
  unfold cellId. intros e.
  apply append_inv_head in e. simpl in e. injection e as e.
  apply dash_split_inj in e; try apply showNat_dashFree.
  destruct e as [e1 e2]. split; apply showNat_inj; assumption.
Qed.

(** ** The layout *)

Lemma map_seq_offset {B} (f : nat -> B) (a n : nat) :
  map f (seq a n) = map (fun j => f (a + j)) (seq 0 n).
Proof.
  revert f. induction a as [|a IH]; intros f; [reflexivity|].
  rewrite <- seq_shift, map_map, IH. reflexivity.
Qed.

(** The sampling loop only moves the cursor, and what it returns is a set of
    [count] distinct indices of the grid. *)
Lemma sampleCurved_spec (total count : Z) (fuel : nat) :
  forall (s : list Z) (g : Rng) (s' : list Z) (g' : Rng),
    validRng g -> (count <= total)%Z ->
    NoDup s -> (forall x, In x s -> (0 <= x < total)%Z) ->
    (Z.of_nat (JSSet.size s) <= count)%Z ->
    Layout.sampleCurved fuel total count s g = (Some s', g') ->
    NoDup s' /\ (forall x, In x s' -> (0 <= x < total)%Z) /\
    Z.of_nat (JSSet.size s') = count /\ tape g' = tape g.
Proof.
  induction fuel as [|fuel IH]; intros s g s' g' v ct nd rg sz; simpl;
    destruct (Z.ltb_spec (Z.of_nat (JSSet.size s)) count) as [lt|ge];
    unfold ret; try discriminate;
    try (intros [= <- <-]; split; [|split; [|split]]; auto; lia).
  unfold bind, random. intros e.
  assert (0 < total)%Z as tpos by lia.
  pose proof (floorMul_range _ total (v (cursor g)) tpos) as fr.
  apply IH in e; auto.
  - apply add_NoDup, nd.
  - intros x Hx. apply add_In in Hx. destruct Hx as [->|Hx]; auto.
  - pose proof (add_size_le Z.eq_dec (floorMul (tape g (cursor g)) total) s). lia.
Qed.

(** If the loop has not stopped after [fuel] draws, these draws hit fewer
    than [count] distinct indices. *)
Lemma sampleCurved_None (total count : Z) (fuel : nat) :
  forall (s : list Z) (g : Rng),
    fst (Layout.sampleCurved fuel total count s g) = None ->
    (Z.of_nat (JSSet.size
       (fold_left (fun s i => JSSet.add Z.eq_dec i s)
          (Layout.drawnIndices fuel total g) s)) < count)%Z.
Proof.
  induction fuel as [|fuel IH]; intros s g; simpl;
    destruct (Z.ltb_spec (Z.of_nat (JSSet.size s)) count) as [lt|ge];
    unfold ret; simpl; try discriminate; auto.
Qed.

Section ForegroundLayout.
Variable curvedIndices : list Z.
Variable ncols : nat.


Lemma fg_inner (row : nat) :
  forall (cs : list nat) (acc : list Fg.Square) (k : Z) (g : Rng),
  exists cells g',
    forRange cs (Layout.pushFg curvedIndices row) (acc, k) g
      = ((acc ++ cells, (k + Z.of_nat (List.length cs))%Z), g') /\
    map Fg.id cells = map (cellId "fg" row) cs /\
    map Fg.isCurved cells = map (Layout.curvedAt curvedIndices k) (seq 0 (List.length cs)) /\
    Forall (fun sq => Fg.id sq = cellId "fg" (Fg.row sq) (Fg.col sq)) cells.
Proof.
  induction cs as [|c cs IH]; intros acc k g; cbn [forRange List.length].
  - exists [], g. rewrite app_nil_r, Z.add_0_r. unfold ret. simpl. auto.
  - rewrite Nat2Z.inj_succ.
    unfold bind at 1. unfold Layout.pushFg at 1.
    unfold bind, getRandomFrom, bind, random, ret. simpl.
    match goal with |- context [forRange cs _ (?a, ?b) ?h] =>
      destruct (IH a b h) as (cells & g' & e & ids & cv & fa) end.
    eexists (_ :: cells), g'. rewrite e. repeat split.
    + rewrite <- app_assoc. simpl. f_equal. f_equal. lia.
    + simpl. f_equal. exact ids.
    + simpl. f_equal.
      * unfold Layout.curvedAt. f_equal. lia.
      * rewrite cv, (map_seq_offset _ 1). apply map_ext.
        intros j. unfold Layout.curvedAt. f_equal. lia.
    + constructor; [reflexivity | exact fa].
Qed.

Lemma fg_outer :
  forall (rs : list nat) (acc : list Fg.Square) (k : Z) (g : Rng),
  exists cells g',
    forRange rs (fun row => forRange (seq 0 ncols) (Layout.pushFg curvedIndices row))
      (acc, k) g
      = ((acc ++ cells, (k + Z.of_nat (List.length rs * ncols))%Z), g') /\
    map Fg.id cells = flat_map (fun r => map (cellId "fg" r) (seq 0 ncols)) rs /\
    map Fg.isCurved cells
      = map (Layout.curvedAt curvedIndices k) (seq 0 (List.length rs * ncols)) /\
    Forall (fun sq => Fg.id sq = cellId "fg" (Fg.row sq) (Fg.col sq)) cells.
Proof.
  induction rs as [|r rs IH]; intros acc k g; simpl.
  - exists [], g. rewrite app_nil_r, Z.add_0_r. unfold ret. auto.
  - unfold bind at 1.
    destruct (fg_inner r (seq 0 ncols) acc k g) as (c1 & g1 & e1 & i1 & v1 & f1).
    rewrite e1.
    destruct (IH (acc ++ c1) (k + Z.of_nat (List.length (seq 0 ncols)))%Z g1)
      as (c2 & g2 & e2 & i2 & v2 & f2).
    exists (c1 ++ c2), g2. rewrite e2. rewrite length_seq in *. repeat split.
    + rewrite <- app_assoc. f_equal. f_equal. lia.
    + rewrite map_app, i1, i2. reflexivity.
    + rewrite map_app, v1, v2, seq_app, map_app. f_equal.
      simpl. rewrite (map_seq_offset _ ncols). apply map_ext.
      intros j. unfold Layout.curvedAt. f_equal. lia.
    + apply Forall_app; auto.
Qed.
End ForegroundLayout.

Lemma NoDup_map_inj {A B} (f : A -> B) (l : list A) :
  (forall x y, f x = f y -> x = y) -> NoDup l -> NoDup (map f l).
Proof.
  intros inj. induction 1 as [|x l nin nd IH]; simpl; constructor; [|exact IH].
  rewrite in_map_iff. intros (y & e & Hy). apply inj in e. subst. contradiction.
Qed.

(** The ids of a grid, row by row. *)
Lemma grid_ids_NoDup (layer : string) (nrows ncols : nat) :
  NoDup (flat_map (fun r => map (cellId layer r) (seq 0 ncols)) (seq 0 nrows)).
Proof.
  assert (forall rs, NoDup rs ->
            NoDup (flat_map (fun r => map (cellId layer r) (seq 0 ncols)) rs)) as H.
  { induction 1 as [|r rs nin nd IH]; simpl; [constructor|].
    apply NoDup_app; [| exact IH |].
    - apply NoDup_map_inj; [| apply seq_NoDup].
      intros c c' e. apply cellId_inj in e. tauto.
    - intros x Hx Hy. apply in_map_iff in Hx. destruct Hx as (c & <- & _).
      apply in_flat_map in Hy. destruct Hy as (r' & Hr' & Hy).
      apply in_map_iff in Hy. destruct Hy as (c' & e & _).
      apply cellId_inj in e. destruct e as [-> _]. contradiction. }
  apply H, seq_NoDup.
Qed.

Lemma grid_ids_In (layer : string) (nrows ncols r c : nat) :
  In (cellId layer r c)
     (flat_map (fun r => map (cellId layer r) (seq 0 ncols)) (seq 0 nrows))
  <-> r < nrows /\ c < ncols.
Proof.
  rewrite in_flat_map. split.
  - intros (r' & Hr' & H). apply in_map_iff in H. destruct H as (c' & e & Hc').
    apply cellId_inj in e. destruct e as [-> ->].
    apply in_seq in Hr', Hc'. lia.
  - intros [Hr Hc]. exists r. split; [apply in_seq; lia|].
    apply in_map, in_seq. lia.
Qed.

Lemma grid_ids_length (layer : string) (nrows ncols : nat) :
  List.length (flat_map (fun r => map (cellId layer r) (seq 0 ncols)) (seq 0 nrows))
  = nrows * ncols.
Proof.
  generalize 0 at 2. induction nrows as [|n IH]; intros a; simpl; [reflexivity|].
  rewrite length_app, length_map, length_seq, IH. reflexivity.
Qed.

Lemma grid_ids_nth (layer : string) (ncols : nat) :
  forall (nrows a r c : nat), r < nrows -> c < ncols ->
    nth_error (flat_map (fun r => map (cellId layer r) (seq 0 ncols)) (seq a nrows))
              (r * ncols + c)
    = Some (cellId layer (a + r) c).
Proof.
  induction nrows as [|n IH]; intros a r c Hr Hc; [lia|]. simpl.
  destruct r as [|r]; simpl.
  - rewrite nth_error_app1 by (rewrite length_map, length_seq; exact Hc).
    rewrite nth_error_map, nth_error_seq.
    destruct (Nat.ltb_spec c ncols); [|lia]. simpl. now rewrite Nat.add_0_r.
  - rewrite nth_error_app2 by (rewrite length_map, length_seq; lia).
    rewrite length_map, length_seq.
    replace (ncols + r * ncols + c - ncols) with (r * ncols + c) by lia.
    rewrite IH by lia. f_equal. f_equal. lia.
Qed.

Lemma index_In {A} (arr : list A) (i : Z) (x : A) : index arr i = Some x -> In x arr.
Proof.
  unfold index. destruct (i <? 0)%Z; [discriminate|]. apply nth_error_In.
Qed.

Section BackgroundLayout.
Variable ncols : nat.


Lemma bg_inner (row : nat) :
  forall (cs : list nat) (acc : list Bg.Square) (g : Rng),
  exists cells g',
    forRange cs (Layout.pushBg row) acc g = (acc ++ cells, g') /\
    map Bg.id cells = map (cellId "bg" row) cs /\
    Forall Layout.bgWellFormed cells.
Proof.
  induction cs as [|c cs IH]; intros acc g; cbn [forRange].
  - exists [], g. rewrite app_nil_r. unfold ret. auto.
  - unfold bind at 1. unfold Layout.pushBg at 1.
    unfold bind, getRandomFrom, bind, random, ret.
    match goal with |- context [forRange cs _ ?a ?h] =>
      destruct (IH a h) as (cells & g' & e & ids & fa) end.
    eexists (_ :: cells), g'. rewrite e. repeat split.
    + rewrite <- app_assoc. reflexivity.
    + simpl. f_equal. exact ids.
    + constructor; [|exact fa]. split; [reflexivity|].
      cbn [Bg.color]. intros col. apply index_In.
Qed.

Lemma bg_outer :
  forall (rs : list nat) (acc : list Bg.Square) (g : Rng),
  exists cells g',
    forRange rs (fun row => forRange (seq 0 ncols) (Layout.pushBg row)) acc g
      = (acc ++ cells, g') /\
    map Bg.id cells = flat_map (fun r => map (cellId "bg" r) (seq 0 ncols)) rs /\
    Forall Layout.bgWellFormed cells.
Proof.
  induction rs as [|r rs IH]; intros acc g; cbn [forRange].
  - exists [], g. rewrite app_nil_r. unfold ret. auto.
  - unfold bind at 1.
    destruct (bg_inner r (seq 0 ncols) acc g) as (c1 & g1 & e1 & i1 & f1).
    rewrite e1.
    destruct (IH (acc ++ c1) g1) as (c2 & g2 & e2 & i2 & f2).
    exists (c1 ++ c2), g2. rewrite e2. repeat split.
    + rewrite <- app_assoc. reflexivity.
    + rewrite map_app, i1, i2. reflexivity.
    + apply Forall_app; auto.
Qed.
End BackgroundLayout.

(** Counting the cells whose index is in [curvedIndices]. *)
Lemma filter_map_length {A} (f : A -> bool) (l : list A) :
  List.length (filter (fun b : bool => b) (map f l)) = List.length (filter f l).
Proof.
  induction l as [|x l IH]; simpl; [reflexivity|]. destruct (f x); simpl; lia.
Qed.

Lemma curved_count (curvedIndices : list Z) (total : nat) :
  NoDup curvedIndices ->
  (forall x, In x curvedIndices -> (0 <= x < Z.of_nat total)%Z) ->
  List.length
    (filter (fun j => JSSet.has Z.eq_dec (0 + Z.of_nat j)%Z curvedIndices) (seq 0 total))
  = List.length curvedIndices.
Proof.
  intros nd rg.
  set (L := filter _ _).
  assert (forall j, In j L <-> j < total /\ In (Z.of_nat j) curvedIndices) as HL.
  { intros j. unfold L. rewrite filter_In, in_seq, Z.add_0_l, has_In.
    split; intros [? ?]; split; auto; lia. }
  apply Nat.le_antisymm.
  - rewrite <- (length_map Z.of_nat L). apply NoDup_incl_length.
    + apply NoDup_map_inj; [intros x y; apply Nat2Z.inj|].
      apply NoDup_filter, seq_NoDup.
    + intros x Hx. apply in_map_iff in Hx. destruct Hx as (j & <- & Hj).
      apply HL in Hj. tauto.
  - rewrite <- (length_map Z.of_nat L). apply NoDup_incl_length; [exact nd|].
    intros x Hx. apply in_map_iff. exists (Z.to_nat x).
    pose proof (rg x Hx). split; [lia|].
    apply HL. split; [lia|]. replace (Z.of_nat (Z.to_nat x)) with x by lia. exact Hx.
Qed.

(** What the layout effect returns, whenever it returns. *)
Lemma generate_inv (fuel : nat) (p : Props) (g : Rng)
    (fg : list Fg.Square) (bg : list Bg.Square) :
  fst (Layout.generate fuel p g) = Some (fg, bg) ->
  exists curvedIndices g1,
    Layout.sampleCurved fuel (Layout.totalSquares p) (Layout.curvedCount p) [] g
      = (Some curvedIndices, g1) /\
    map Fg.id fg
      = flat_map (fun r => map (cellId "fg" r) (seq 0 (cols p))) (seq 0 (rows p)) /\
    map Fg.isCurved fg
      = map (fun j => JSSet.has Z.eq_dec (0 + Z.of_nat j)%Z curvedIndices)
            (seq 0 (rows p * cols p)) /\
    Forall (fun sq => Fg.id sq = cellId "fg" (Fg.row sq) (Fg.col sq)) fg /\
    map Bg.id bg
      = flat_map (fun r => map (cellId "bg" r) (seq 0 (backgroundCols p)))
                 (seq 0 (backgroundRows p)) /\
    Forall (fun sq => Bg.id sq = cellId "bg" (Bg.row sq) (Bg.col sq) /\
                      forall c, Bg.color sq = Some c -> In c DEFAULT_COLORS) bg.
Proof.
  unfold Layout.generate. unfold bind at 1.
  destruct (Layout.sampleCurved _ _ _ _ g) as [[ci|] g1] eqn:E; [|discriminate].
  unfold bind at 1. unfold Layout.fgSquares. unfold bind at 1.
  destruct (fg_outer ci (cols p) (seq 0 (rows p)) [] 0%Z g1)
    as (cells & g2 & e & ids & cv & fa).
  rewrite e. unfold ret at 1. unfold bind at 1. unfold Layout.bgSquares.
  destruct (bg_outer (backgroundCols p) (seq 0 (backgroundRows p)) [] g2)
    as (bcells & g3 & eb & bids & bfa).
  rewrite eb. unfold ret. simpl. intros [= <- <-].
  exists ci, g1. rewrite length_seq in cv. auto 10.
Qed.

Lemma generate_returns (fuel : nat) (p : Props) (g : Rng) :
  (Layout.curvedCount p
     <= Z.of_nat (Layout.distinctHits fuel (Layout.totalSquares p) g))%Z ->
  exists fg bg, fst (Layout.generate fuel p g) = Some (fg, bg).
Proof.
  intros hits. unfold Layout.generate. unfold bind at 1.
  destruct (Layout.sampleCurved _ _ _ _ g) as [[ci|] g1] eqn:E.
  - unfold bind, ret.
    destruct (Layout.fgSquares _ _ _ g1) as [fg g2].
    destruct (Layout.bgSquares _ _ g2) as [bg g3]. simpl. eauto.
  - pose proof (sampleCurved_None (Layout.totalSquares p) (Layout.curvedCount p)
                  fuel [] g) as H.
    rewrite E in H.
    specialize (H eq_refl). unfold Layout.distinctHits in hits. lia.
Qed.

Lemma curvedCount_bounds (p : Props) :
  (0 <= curvedPercentage p <= 100)%Z ->
  (0 <= Layout.curvedCount p <= Layout.totalSquares p)%Z.
Proof.
  intros [lo hi]. unfold Layout.curvedCount, Layout.totalSquares.
  set (t := Z.of_nat (rows p * cols p)). assert (0 <= t)%Z by (unfold t; lia).
  split.
  - apply Z.div_pos; nia.
  - apply Z.div_le_upper_bound; nia.
Qed.

Lemma generate_foreground (fuel : nat) (p : Props) (g : Rng)
    (fg : list Fg.Square) (bg : list Bg.Square) :
  (0 <= curvedPercentage p <= 100)%Z -> validRng g ->
  fst (Layout.generate fuel p g) = Some (fg, bg) ->
  List.length fg = rows p * cols p /\
  NoDup (map Fg.id fg) /\
  (forall sq, In sq fg ->
     Fg.id sq = cellId "fg" (Fg.row sq) (Fg.col sq) /\
     Fg.row sq < rows p /\ Fg.col sq < cols p) /\
  (forall r c, r < rows p -> c < cols p ->
     exists sq, nth_error fg (r * cols p + c) = Some sq /\
                Fg.id sq = cellId "fg" r c /\ Fg.row sq = r /\ Fg.col sq = c) /\
  Z.of_nat (List.length (filter Fg.isCurved fg)) = Layout.curvedCount p.
Proof.
  intros pc v e.
  destruct (generate_inv _ _ _ _ _ e) as (ci & g1 & es & ids & cv & fa & _).
  pose proof (curvedCount_bounds p pc) as cb.
  assert (Z.of_nat (JSSet.size (@nil Z)) <= Layout.curvedCount p)%Z as sz0
    by (simpl; lia).
  destruct (sampleCurved_spec _ _ _ _ _ _ _ v (proj2 cb) (NoDup_nil Z)
              (fun x (H : In x []) => match H with end) sz0 es)
    as (nd & rg & sz & _).
  assert (List.length fg = rows p * cols p) as len
    by (rewrite <- (length_map Fg.id), ids; apply grid_ids_length).
  rewrite Forall_forall in fa.
  split; [exact len|]. split; [rewrite ids; apply grid_ids_NoDup|].
  split; [|split].
  - intros sq Hsq. split; [auto|].
    apply (grid_ids_In "fg"). rewrite <- (fa sq Hsq), <- ids. now apply in_map.
  - intros r c Hr Hc.
    pose proof (grid_ids_nth "fg" (cols p) (rows p) 0 r c Hr Hc) as nth.
    rewrite <- ids, nth_error_map in nth.
    destruct (nth_error fg (r * cols p + c)) as [sq|] eqn:E; [|discriminate].
    injection nth as nth. exists sq. split; [reflexivity|]. split; [exact nth|].
    rewrite (fa sq (nth_error_In _ _ E)) in nth.
    apply cellId_inj in nth. tauto.
  - rewrite <- filter_map_length, cv, filter_map_length, curved_count; auto.
Qed.

Lemma generate_background (fuel : nat) (p : Props) (g : Rng)
    (fg : list Fg.Square) (bg : list Bg.Square) :
  fst (Layout.generate fuel p g) = Some (fg, bg) ->
  List.length bg = backgroundRows p * backgroundCols p /\
  NoDup (map Bg.id bg) /\
  (forall sq, In sq bg ->
     Bg.id sq = cellId "bg" (Bg.row sq) (Bg.col sq) /\
     Bg.row sq < backgroundRows p /\ Bg.col sq < backgroundCols p) /\
  (forall sq isActive, In sq bg -> Render.bgShape isActive sq = Render.Regular).
Proof.
  intros e.
  destruct (generate_inv _ _ _ _ _ e) as (_ & _ & _ & _ & _ & _ & ids & fa).
  rewrite Forall_forall in fa.
  split; [rewrite <- (length_map Bg.id), ids; apply grid_ids_length|].
  split; [rewrite ids; apply grid_ids_NoDup|]. split.
  - intros sq Hsq. destruct (fa sq Hsq) as [eid _]. split; [exact eid|].
    apply (grid_ids_In "bg"). rewrite <- eid, <- ids. now apply in_map.
  - intros sq isActive Hsq. destruct (fa sq Hsq) as [_ col].
    destruct sq as [i r c [k|]]; destruct isActive; try reflexivity.
    specialize (col k eq_refl). simpl in col.
    repeat (destruct col as [<-|col]; [reflexivity|]). destruct col.
Qed.

(** ** Arrays *)

Lemma firstn_skipn_middle {A} (l1 : list A) (x : A) (l2 : list A) :
  firstn (List.length l1) (l1 ++ x :: l2) ++ skipn (S (List.length l1)) (l1 ++ x :: l2)
  = l1 ++ l2.
Proof.
  induction l1 as [|y l1 IH]; [reflexivity|].
  cbn [List.length app firstn skipn]. f_equal. exact IH.
Qed.

(** [splice] takes one element out, or finds none and leaves the array as it
    is. *)
Lemma splice1_cases {A} (i : Z) (arr : list A) :
  (exists x l1 l2, arr = l1 ++ x :: l2 /\ splice1 i arr = (Some x, l1 ++ l2)) \/
  splice1 i arr = (None, arr).
Proof.
  unfold splice1.
  set (k := Z.to_nat _).
  destruct (nth_error arr k) as [x|] eqn:E.
  - left. destruct (nth_error_split _ _ E) as (l1 & l2 & -> & len).
    exists x, l1, l2. split; [reflexivity|]. f_equal.
    rewrite <- len. apply firstn_skipn_middle.
  - right. apply nth_error_None in E. f_equal.
    rewrite firstn_all2 by exact E. rewrite skipn_all2 by lia. apply app_nil_r.
Qed.

(** With an index inside the array it takes one out. *)
Lemma splice1_inside {A} (i : Z) (arr : list A) :
  (0 <= i < Z.of_nat (List.length arr))%Z ->
  exists x l1 l2, arr = l1 ++ x :: l2 /\ splice1 i arr = (Some x, l1 ++ l2).
Proof.
  intros rg. destruct (splice1_cases i arr) as [H|H]; [exact H|].
  exfalso. unfold splice1 in H. injection H as H _.
  apply nth_error_None in H.
  destruct (Z.ltb_spec i 0); lia.
Qed.

(** ** The foreground round *)

(** The regular loop appends fresh ids to the set: at most one per
    iteration, all different, none of them in the set before, each the id of
    a cell of the pool. *)
Lemma fg_activateLoop_spec (n : nat) :
  forall (l : list Fg.Square) (new : IdSet) (g : Rng),
  exists fresh,
    snd (fst (Foreground.activateLoop n l new g)) = new ++ fresh /\
    List.length fresh <= n /\
    NoDup fresh /\
    (forall x, In x fresh -> ~ In x new /\ exists sq, In sq l /\ Fg.id sq = x).
Proof.
  induction n as [|n IH]; intros l new g; cbn [Foreground.activateLoop].
  - exists []. unfold ret. simpl. rewrite app_nil_r.
    split; [reflexivity|]. split; [lia|]. split; [constructor|]. intros x [].
  - destruct l as [|sq0 l0].
    + destruct (IH [] new g) as (fresh & e & len & nd & fr).
      exists fresh. repeat split; auto; apply fr; assumption.
    + unfold bind, random.
      destruct (splice1_cases
                  (floorMul (tape g (cursor g)) (Z.of_nat (List.length (sq0 :: l0))))
                  (sq0 :: l0)) as [(x & l1 & l2 & el & es)|es]; rewrite es.
      * match goal with |- context [Foreground.activateLoop n ?a ?b ?h] =>
          destruct (IH a b h) as (fresh & e & len & nd & fr) end.
        exists ((if has_id (Fg.id x) new then [] else [Fg.id x]) ++ fresh).
        rewrite e. unfold add_id. rewrite add_app, <- app_assoc.
        split; [reflexivity|].
        assert (forall y, In y fresh -> y <> Fg.id x /\ ~ In y new /\
                          exists sq, In sq (sq0 :: l0) /\ Fg.id sq = y) as fr'.
        { intros y Hy. destruct (fr y Hy) as (nin & sq & Hsq & eid).
          unfold add_id in nin. rewrite add_In in nin.
          repeat split; try tauto. exists sq. split; [|exact eid].
          rewrite el. apply in_app_iff in Hsq. apply in_app_iff. simpl. tauto. }
        fold (has_id (Fg.id x) new).
        destruct (has_id (Fg.id x) new) eqn:E; cbn [app List.length].
        -- split; [lia|]. split; [exact nd|]. intros y Hy. apply fr', Hy.
        -- apply has_false_In in E. split; [lia|]. split.
           ++ constructor; [|exact nd]. intros Hy. apply fr' in Hy. tauto.
           ++ intros y [<-|Hy]; [|apply fr', Hy]. split; [exact E|].
              exists x. split; [|reflexivity]. rewrite el.
              apply in_app_iff. simpl. tauto.
      * destruct (IH (sq0 :: l0) new {| tape := tape g; cursor := S (cursor g) |})
          as (fresh & e & len & nd & fr).
        exists fresh. repeat split; auto; apply fr; assumption.
Qed.

(** The same loop, when every draw is in range and the pool holds cells with
    different ids that are not in the set: it takes one cell per iteration
    until the iterations or the pool run out. *)
Lemma fg_activateLoop_exact (n : nat) :
  forall (l : list Fg.Square) (new : IdSet) (g : Rng),
    validRng g -> NoDup (map Fg.id l) ->
    (forall sq, In sq l -> ~ In (Fg.id sq) new) ->
    JSSet.size (snd (fst (Foreground.activateLoop n l new g)))
    = JSSet.size new + Nat.min n (List.length l).
Proof.
  induction n as [|n IH]; intros l new g v nd out; cbn [Foreground.activateLoop].
  - unfold ret. simpl. lia.
  - destruct l as [|sq0 l0].
    + rewrite IH; auto. simpl. lia.
    + unfold bind, random.
      destruct (splice1_inside
                  (floorMul (tape g (cursor g)) (Z.of_nat (List.length (sq0 :: l0))))
                  (sq0 :: l0)) as (x & l1 & l2 & el & es).
      { apply floorMul_range; [apply v|].
        cbn [List.length]. clear. lia. }
      rewrite es. rewrite el in nd, out.
      rewrite map_app in nd. simpl in nd.
      pose proof (NoDup_remove_1 _ _ _ nd) as nd1.
      pose proof (NoDup_remove_2 _ _ _ nd) as nd2.
      rewrite IH.
      * unfold add_id. rewrite add_size_new by (apply out, in_app_iff; simpl; auto).
        rewrite el, !length_app. cbn [List.length]. clear. lia.
      * apply validRng_step, v.
      * rewrite map_app. exact nd1.
      * intros sq Hsq Hin. unfold add_id in Hin. apply add_In in Hin.
        destruct Hin as [e|Hin].
        -- apply nd2. rewrite <- e, <- map_app. now apply in_map.
        -- apply (out sq); [|exact Hin].
           apply in_app_iff in Hsq. apply in_app_iff. simpl. tauto.
Qed.

Lemma fg_regularPath_spec (p : Props) (l : list Fg.Square) (active : IdSet) (g : Rng) :
  exists fresh,
    fst (Foreground.regularPath p l active active g) = active ++ fresh /\
    List.length fresh
      <= Z.to_nat (Foreground.numToActivate p active (tape g (cursor g))) /\
    (Z.of_nat (List.length fresh)
       <= Z.max 0 (Z.of_nat (maxActiveSquares p) - Z.of_nat (JSSet.size active)))%Z /\
    (validRng g -> List.length fresh <= 3) /\
    NoDup fresh /\
    (forall x, In x fresh -> ~ In x active /\ exists sq, In sq l /\ Fg.id sq = x).
Proof.
  unfold Foreground.regularPath. destruct l as [|sq0 l0].
  - exists []. unfold ret. simpl. rewrite app_nil_r.
    split; [reflexivity|]. split; [lia|]. split; [lia|]. split; [lia|].
    split; [constructor|]. intros x [].
  - unfold bind, random, ret.
    set (q := tape g (cursor g)).
    set (n := Z.to_nat (Foreground.numToActivate p active q)).
    destruct (fg_activateLoop_spec n (sq0 :: l0) active
                {| tape := tape g; cursor := S (cursor g) |})
      as (fresh & e & len & nd & fr).
    destruct (Foreground.activateLoop n (sq0 :: l0) active _) as [[rest s] g2].
    simpl in e. simpl. exists fresh. split; [exact e|]. split; [exact len|].
    unfold n, Foreground.numToActivate in len.
    split; [lia|]. split; [|split; assumption].
    intros v. pose proof (floorMul_le q 3 (v (cursor g)) eq_refl). lia.
Qed.

Lemma NoDup_map_filter {A B} (f : A -> B) (t : A -> bool) (l : list A) :
  NoDup (map f l) -> NoDup (map f (filter t l)).
Proof.
  induction l as [|x l IH]; simpl; [auto|]. intros nd.
  pose proof (NoDup_cons_iff (f x) (map f l)) as [H _]. destruct (H nd) as [nin nd'].
  destruct (t x); simpl; auto. constructor; auto.
  intros Hin. apply nin. apply in_map_iff in Hin. destruct Hin as (y & e & Hy).
  apply in_map_iff. exists y. split; [exact e|]. apply filter_In in Hy. tauto.
Qed.

(** The number of regular cells a round activates. *)
Lemma fg_regularPath_exact (p : Props) (squares : list Fg.Square)
    (active : IdSet) (g : Rng) :
  validRng g -> NoDup (map Fg.id squares) ->
  JSSet.size (fst (Foreground.regularPath p
                     (Foreground.inactiveRegular squares active) active active g))
  = JSSet.size active
    + Nat.min (Z.to_nat (Foreground.numToActivate p active (tape g (cursor g))))
              (List.length (Foreground.inactiveRegular squares active)).
Proof.
  intros v nd. unfold Foreground.regularPath.
  destruct (Foreground.inactiveRegular squares active) as [|sq0 l0] eqn:E.
  - unfold ret. simpl. lia.
  - unfold bind, random, ret.
    pose proof (fg_activateLoop_exact
                  (Z.to_nat (Foreground.numToActivate p active (tape g (cursor g))))
                  (sq0 :: l0) active {| tape := tape g; cursor := S (cursor g) |}) as H.
    destruct (Foreground.activateLoop _ (sq0 :: l0) active _) as [[rest s] g2].
    cbn [fst snd] in H. cbn [fst snd]. apply H.
    + apply validRng_step, v.
    + rewrite <- E. unfold Foreground.inactiveRegular, Foreground.inactiveSquares.
      now do 2 apply NoDup_map_filter.
    + intros sq Hsq. rewrite <- E in Hsq.
      unfold Foreground.inactiveRegular, Foreground.inactiveSquares in Hsq.
      rewrite !filter_In in Hsq. destruct Hsq as [[_ H1] _].
      apply (has_false_In string_dec). unfold has_id in H1.
      now destruct (JSSet.has _ _ _).
Qed.

Lemma fg_curvedPath_spec (l : list Fg.Square) (new : IdSet) (g : Rng) :
  exists fresh,
    fst (Foreground.curvedPath l new g) = new ++ fresh /\
    List.length fresh <= 1 /\
    (forall x, In x fresh -> ~ In x new /\ exists sq, In sq l /\ Fg.id sq = x).
Proof.
  assert (exists fresh : IdSet, new = new ++ fresh /\ List.length fresh <= 1 /\
            (forall x, In x fresh -> ~ In x new /\ exists sq, In sq l /\ Fg.id sq = x))
    as same.
  { exists []. rewrite app_nil_r. split; [reflexivity|]. split; [simpl; lia|].
    intros x []. }
  unfold Foreground.curvedPath. destruct l as [|sq0 l0]; [exact same|].
  unfold bind, random, ret.
  destruct (below03 _); [|exact same].
  destruct (index (sq0 :: l0) _) as [sq|] eqn:E; [|exact same]. simpl.
  apply index_In in E. unfold add_id. rewrite add_app.
  fold (has_id (Fg.id sq) new).
  destruct (has_id (Fg.id sq) new) eqn:H; [rewrite app_nil_r; exact same|].
  exists [Fg.id sq]. split; [reflexivity|]. split; [simpl; lia|].
  intros x [<-|[]]. split; [now apply has_false_In in H | eauto].
Qed.

(** When a curved cell is inactive and the draw is below 0.3, one of them is
    activated. *)
Lemma fg_curvedPath_fires (l : list Fg.Square) (new : IdSet) (g : Rng) :
  validRng g -> l <> [] -> below03 (tape g (cursor g)) = true ->
  exists sq, In sq l /\ fst (Foreground.curvedPath l new g) = add_id (Fg.id sq) new.
Proof.
  intros v ne lt. unfold Foreground.curvedPath.
  destruct l as [|sq0 l0]; [congruence|].
  unfold bind, random, ret. rewrite lt. cbn [tape cursor].
  set (i := floorMul _ _).
  assert (0 <= i < Z.of_nat (List.length (sq0 :: l0)))%Z as rg.
  { apply floorMul_range; [apply v|]. cbn [List.length]. clear. lia. }
  unfold index. destruct (Z.ltb_spec i 0); [lia|].
  destruct (nth_error (sq0 :: l0) (Z.to_nat i)) as [sq|] eqn:E.
  - exists sq. split; [eapply nth_error_In; exact E | reflexivity].
  - apply nth_error_None in E. lia.
Qed.

(** A foreground round appends to the set what the regular path activates
    and then what the curved path activates. *)
Lemma fg_tick_spec (p : Props) (squares : list Fg.Square) (active : IdSet) (g : Rng) :
  exists regular curved,
    fst (Foreground.tick p squares active g) = active ++ regular ++ curved /\
    fst (Foreground.regularPath p (Foreground.inactiveRegular squares active)
           active active g) = active ++ regular /\
    List.length regular
      <= Z.to_nat (Foreground.numToActivate p active (tape g (cursor g))) /\
    (Z.of_nat (List.length regular)
       <= Z.max 0 (Z.of_nat (maxActiveSquares p) - Z.of_nat (JSSet.size active)))%Z /\
    (validRng g -> List.length regular <= 3) /\
    List.length curved <= 1 /\
    (forall x, In x regular ->
       ~ In x active /\
       exists sq, In sq (Foreground.inactiveRegular squares active) /\ Fg.id sq = x) /\
    (forall x, In x curved ->
       ~ In x (active ++ regular) /\
       exists sq, In sq (Foreground.inactiveCurved squares active) /\ Fg.id sq = x).
Proof.
  unfold Foreground.tick. unfold bind.
  destruct (fg_regularPath_spec p (Foreground.inactiveRegular squares active) active g)
    as (regular & e1 & b0 & b1 & b3 & _ & fr1).
  destruct (Foreground.regularPath _ _ _ _ g) as [s g1]. simpl in e1. subst s.
  destruct (fg_curvedPath_spec (Foreground.inactiveCurved squares active)
              (active ++ regular) g1) as (curved & e2 & b2 & fr2).
  exists regular, curved. rewrite e2, <- app_assoc. auto 10.
Qed.

(** ** The background round *)

Lemma bg_activateLoop_spec (n : nat) :
  forall (l : list Bg.Square) (new : IdSet) (g : Rng),
  exists fresh,
    fst (Background.activateLoop n l new g) = new ++ fresh /\
    List.length fresh <= n /\
    (forall x, In x fresh -> ~ In x new /\ exists sq, In sq l /\ Bg.id sq = x).
Proof.
  induction n as [|n IH]; intros l new g; cbn [Background.activateLoop].
  - exists []. unfold ret. simpl. rewrite app_nil_r.
    split; [reflexivity|]. split; [lia|]. intros x [].
  - destruct l as [|sq0 l0].
    + exists []. unfold ret. simpl. rewrite app_nil_r.
      split; [reflexivity|]. split; [lia|]. intros x [].
    + unfold bind, random.
      destruct (splice1_cases
                  (floorMul (tape g (cursor g)) (Z.of_nat (List.length (sq0 :: l0))))
                  (sq0 :: l0)) as [(x & l1 & l2 & el & es)|es]; rewrite es.
      * match goal with |- context [Background.activateLoop n ?a ?b ?h] =>
          destruct (IH a b h) as (fresh & e & len & fr) end.
        exists ((if has_id (Bg.id x) new then [] else [Bg.id x]) ++ fresh).
        rewrite e. unfold add_id. rewrite add_app, <- app_assoc.
        split; [reflexivity|].
        assert (forall y, In y fresh -> ~ In y new /\
                          exists sq, In sq (sq0 :: l0) /\ Bg.id sq = y) as fr'.
        { intros y Hy. destruct (fr y Hy) as (nin & sq & Hsq & eid).
          unfold add_id in nin. rewrite add_In in nin.
          split; [tauto|]. exists sq. split; [|exact eid].
          rewrite el. apply in_app_iff in Hsq. apply in_app_iff. simpl. tauto. }
        fold (has_id (Bg.id x) new).
        destruct (has_id (Bg.id x) new) eqn:E; cbn [app List.length].
        -- split; [lia | exact fr'].
        -- apply has_false_In in E. split; [lia|].
           intros y [<-|Hy]; [|apply fr', Hy]. split; [exact E|].
           exists x. split; [|reflexivity]. rewrite el.
           apply in_app_iff. simpl. tauto.
      * destruct (IH (sq0 :: l0) new {| tape := tape g; cursor := S (cursor g) |})
          as (fresh & e & len & fr).
        exists fresh. split; [exact e|]. split; [lia | exact fr].
Qed.

Lemma bg_tick_spec (p : Props) (bgs : list Bg.Square) (active : IdSet) (g : Rng) :
  match fst (Background.tick p bgs active g) with
  | None => Background.inactive bgs active = []
  | Some s =>
      exists fresh,
        s = active ++ fresh /\
        List.length fresh
          <= Z.to_nat (Background.numToActivate p active (tape g (cursor g))) /\
        (Z.of_nat (List.length fresh)
           <= Z.max 0 (Z.of_nat (maxBackgroundActive p) - Z.of_nat (JSSet.size active)))%Z /\
        (validRng g -> List.length fresh <= 2) /\
        (forall x, In x fresh ->
           ~ In x active /\
           exists sq, In sq (Background.inactive bgs active) /\ Bg.id sq = x)
  end.
Proof.
  unfold Background.tick.
  destruct (Background.inactive bgs active) as [|sq0 l0]; [reflexivity|].
  unfold bind, random, ret.
  set (q := tape g (cursor g)).
  set (n := Z.to_nat (Background.numToActivate p active q)).
  destruct (bg_activateLoop_spec n (sq0 :: l0) active
              {| tape := tape g; cursor := S (cursor g) |}) as (fresh & e & len & fr).
  destruct (Background.activateLoop n (sq0 :: l0) active _) as [s g2].
  simpl in e. simpl. exists fresh. split; [exact e|]. split; [exact len|].
  unfold n, Background.numToActivate in len.
  split; [lia|]. split; [|exact fr].
  intros v. pose proof (floorMul_le q 2 (v (cursor g)) eq_refl). lia.
Qed.

(** ** The deactivation step *)

(** It only deletes, and only ids of the snapshot. *)
Lemma deactivateLoop_spec (ids : IdSet) :
  forall (prev updated : IdSet) (g : Rng),
    let r := fst (deactivateLoop ids prev updated g) in
    (forall x, In x r -> In x updated) /\
    (forall x, ~ In x ids -> In x updated -> In x r) /\
    List.length r <= List.length updated /\
    (NoDup updated -> NoDup r).
Proof.
  induction ids as [|i ids IH]; intros prev updated g; cbn [deactivateLoop].
  - unfold ret. simpl. auto.
  - assert (forall g',
      let r := fst (deactivateLoop ids prev (delete_id i updated) g') in
      (forall x, In x r -> In x updated) /\
      (forall x, ~ In x (i :: ids) -> In x updated -> In x r) /\
      List.length r <= List.length updated /\ (NoDup updated -> NoDup r)) as del.
    { intros g'. destruct (IH prev (delete_id i updated) g') as (a & b & c & d).
      pose proof (delete_length string_dec i updated).
      unfold delete_id in *. repeat split.
      - intros x Hx. apply a in Hx. apply delete_In in Hx. tauto.
      - intros x nin Hx. apply b; [simpl in nin; tauto|].
        apply delete_In. simpl in nin. split; [intros ->; tauto | exact Hx].
      - lia.
      - intros nd. apply d, delete_NoDup, nd. }
    destruct (negb (has_id i prev)); [apply del|].
    unfold bind, random. destruct (above03 _); [apply del|].
    destruct (IH prev updated {| tape := tape g; cursor := S (cursor g) |})
      as (a & b & c & d).
    repeat split; auto. intros x nin. apply b. simpl in nin. tauto.
Qed.

Lemma deactivate_spec (snapshot prev : IdSet) (g : Rng) :
  let r := fst (deactivate snapshot prev g) in
  (forall x, In x r -> In x prev) /\
  (forall x, ~ In x snapshot -> In x prev -> In x r) /\
  JSSet.size r <= JSSet.size prev /\
  (NoDup prev -> NoDup r).
Proof. apply deactivateLoop_spec. Qed.

(** ** The draws a round consumes come from the same tape *)

Lemma fg_activateLoop_tape (n : nat) :
  forall (l : list Fg.Square) (new : IdSet) (g : Rng),
    tape (snd (Foreground.activateLoop n l new g)) = tape g.
Proof.
  induction n as [|n IH]; intros l new g; cbn [Foreground.activateLoop];
    [reflexivity|].
  destruct l as [|sq0 l0]; [apply IH|].
  unfold bind, random.
  destruct (splice1 _ (sq0 :: l0)) as [[sq|] rest]; rewrite IH; reflexivity.
Qed.

Lemma fg_regularPath_tape (p : Props) (l : list Fg.Square) (active new : IdSet) (g : Rng) :
  tape (snd (Foreground.regularPath p l active new g)) = tape g.
Proof.
  unfold Foreground.regularPath. destruct l as [|sq0 l0]; [reflexivity|].
  unfold bind, random, ret.
  match goal with |- context [Foreground.activateLoop ?n ?a ?b ?h] =>
    pose proof (fg_activateLoop_tape n a b h) as H;
    destruct (Foreground.activateLoop n a b h) as [r g2] end.
  exact H.
Qed.

(** ** The timers of the background layer *)



(** ** The sets stay free of repetitions *)

Lemma fg_activateLoop_NoDup (n : nat) :
  forall (l : list Fg.Square) (new : IdSet) (g : Rng),
    NoDup new -> NoDup (snd (fst (Foreground.activateLoop n l new g))).
Proof.
  induction n as [|n IH]; intros l new g nd; cbn [Foreground.activateLoop];
    [exact nd|].
  destruct l as [|sq0 l0]; [apply IH, nd|].
  unfold bind, random.
  destruct (splice1 _ (sq0 :: l0)) as [[sq|] rest]; apply IH; [|exact nd].
  apply add_NoDup, nd.
Qed.

Lemma fg_tick_NoDup (p : Props) (squares : list Fg.Square) (active : IdSet) (g : Rng) :
  NoDup active -> NoDup (fst (Foreground.tick p squares active g)).
Proof.
  intros nd. unfold Foreground.tick, bind.
  assert (NoDup (fst (Foreground.regularPath p
                        (Foreground.inactiveRegular squares active)
                        active active g))) as nd1.
  { unfold Foreground.regularPath.
    destruct (Foreground.inactiveRegular squares active) as [|sq0 l0]; [exact nd|].
    unfold bind, random, ret.
    match goal with |- context [Foreground.activateLoop ?n ?a ?b ?h] =>
      pose proof (fg_activateLoop_NoDup n a b h nd) as H;
      destruct (Foreground.activateLoop n a b h) as [[rest s] g2] end.
    exact H. }
  destruct (Foreground.regularPath _ _ _ _ g) as [s g1]. simpl in nd1.
  unfold Foreground.curvedPath.
  destruct (Foreground.inactiveCurved squares active) as [|sq0 l0]; [exact nd1|].
  unfold bind, random, ret. destruct (below03 _); [|exact nd1].
  destruct (index (sq0 :: l0) _) as [sq|]; [|exact nd1].
  apply add_NoDup, nd1.
Qed.

Lemma bg_activateLoop_NoDup (n : nat) :
  forall (l : list Bg.Square) (new : IdSet) (g : Rng),
    NoDup new -> NoDup (fst (Background.activateLoop n l new g)).
Proof.
  induction n as [|n IH]; intros l new g nd; cbn [Background.activateLoop];
    [exact nd|].
  destruct l as [|sq0 l0]; [exact nd|].
  unfold bind, random.
  destruct (splice1 _ (sq0 :: l0)) as [[sq|] rest]; apply IH; [|exact nd].
  apply add_NoDup, nd.
Qed.

Lemma bg_tick_NoDup (p : Props) (bgs : list Bg.Square) (active : IdSet) (g : Rng) :
  NoDup active ->
  forall s, fst (Background.tick p bgs active g) = Some s -> NoDup s.
Proof.
  intros nd s. unfold Background.tick.
  destruct (Background.inactive bgs active) as [|sq0 l0]; [discriminate|].
  unfold bind, random, ret.
  match goal with |- context [Background.activateLoop ?n ?a ?b ?h] =>
    pose proof (bg_activateLoop_NoDup n a b h nd) as H;
    destruct (Background.activateLoop n a b h) as [s' g2] end.
  simpl. intros [= <-]. exact H.
Qed.


(* ================================================================== *)
(** * The claims *)
(* ================================================================== *)

(** ** C1: which ids a deactivation step may remove *)

(** C1, as stated, fails.  On a grid of two regular cells the first round
    activates [fg-0-0] and its deactivation step keeps it; the second round
    starts with [fg-0-0] active and activates [fg-0-1]; the deactivation step
    of the second round removes [fg-0-0], an id that was active before that
    round began. *)
Lemma C1_counterexample :
  let squares := [Fg.mkSquare "fg-0-0" 0 0 false None;
                  Fg.mkSquare "fg-0-1" 0 1 false None] in
  let round := Timers.fgRound defaultProps squares in
  let g := mkRng (tapeOf [0; 0; 0; 0; 0; 1 # 2; 0]%Q) 0 in
  let run es := fst (Timers.run round es Timers.mounted g) in
  let before := run [Timers.Tick; Timers.Timeout] in
  let committed := run [Timers.Tick; Timers.Timeout; Timers.Tick] in
  let after := run [Timers.Tick; Timers.Timeout; Timers.Tick; Timers.Timeout] in
  Timers.active before = ["fg-0-0"%string] /\
  Timers.active committed = ["fg-0-0"%string; "fg-0-1"%string] /\
  Timers.pending committed = [["fg-0-0"%string; "fg-0-1"%string]] /\
  Timers.active after = ["fg-0-1"%string].
Proof. vm_compute. repeat split; reflexivity. Qed.

(** C1, amended.  A round queues for its deferred step the whole set it
    commits, which holds every id that was active before the round.  When the
    step fires it removes ids only from among the ids of that set: an id
    outside the snapshot stays, and nothing is added.  This holds for the
    rounds of both layers. *)
Theorem C1_deactivation_candidates (l : Timers.Layer) (g : Rng) :
  (forall p squares,
     Timers.intervalLive l = true ->
     let l1 := fst (Timers.step (Timers.fgRound p squares) Timers.Tick l g) in
     Timers.pending l1 = Timers.pending l ++ [Timers.active l1] /\
     incl (Timers.active l) (Timers.active l1)) /\
  (forall p bgs,
     Timers.intervalLive l = true ->
     let l1 := fst (Timers.step (Timers.bgRound p bgs) Timers.Tick l g) in
     l1 = l \/
     (Timers.pending l1 = Timers.pending l ++ [Timers.active l1] /\
      incl (Timers.active l) (Timers.active l1))) /\
  (forall round snapshot rest,
     Timers.pending l = snapshot :: rest ->
     let l' := fst (Timers.step round Timers.Timeout l g) in
     Timers.pending l' = rest /\
     (forall x, In x (Timers.active l') -> In x (Timers.active l)) /\
     (forall x, ~ In x snapshot -> In x (Timers.active l) -> In x (Timers.active l'))).
Proof.
  split; [|split].
  - intros p squares live. cbn [Timers.step]. rewrite live.
    unfold bind, Timers.fgRound, bind, ret.
    destruct (fg_tick_spec p squares (Timers.active l) g)
      as (regular & curved & e & _).
    destruct (Foreground.tick p squares (Timers.active l) g) as [s g1].
    simpl in e. subst s. cbn [fst Timers.pending Timers.active].
    split; [reflexivity|]. intros x Hx. apply in_app_iff. auto.
  - intros p bgs live. cbn [Timers.step]. rewrite live.
    unfold bind, Timers.bgRound, ret.
    pose proof (bg_tick_spec p bgs (Timers.active l) g) as H.
    destruct (Background.tick p bgs (Timers.active l) g) as [[s|] g1];
      [|left; reflexivity].
    simpl in H. destruct H as (fresh & -> & _). right.
    cbn [fst Timers.pending Timers.active].
    split; [reflexivity|]. intros x Hx. apply in_app_iff. auto.
  - intros round snapshot rest pend. cbn [Timers.step]. rewrite pend.
    unfold bind, ret.
    destruct (deactivate_spec snapshot (Timers.active l) g) as (a & b & _).
    destruct (deactivate snapshot (Timers.active l) g) as [updated g1].
    cbn [fst Timers.pending Timers.active] in *. auto.
Qed.

(** C1 at a set of two ids whose pending snapshot holds the second only:
    the first one stays. *)
Lemma C1_deactivation_candidates_witness :
  let l := Timers.mkLayer ["fg-0-0"%string; "fg-0-1"%string] true
             [["fg-0-1"%string]] in
  let g := mkRng (tapeOf [1 # 2]%Q) 0 in
  let l' := fst (Timers.step (Timers.fgRound defaultProps []) Timers.Timeout l g) in
  Timers.pending l = ["fg-0-1"%string] :: [] /\
  ~ In "fg-0-0"%string ["fg-0-1"%string] /\
  In "fg-0-0"%string (Timers.active l) /\
  In "fg-0-0"%string (Timers.active l').
Proof.
  intros l g l'.
  assert (Timers.pending l = ["fg-0-1"%string] :: []) as pend by reflexivity.
  assert (~ In "fg-0-0"%string ["fg-0-1"%string]) as out
    by (simpl; intros [H|[]]; discriminate H).
  assert (In "fg-0-0"%string (Timers.active l)) as act by (simpl; auto).
  repeat split; try assumption.
  exact (proj2 (proj2 (proj2 (proj2 (C1_deactivation_candidates l g))
                         (Timers.fgRound defaultProps []) _ _ pend))
           "fg-0-0"%string out act).
Defined.

(** ** C2: teardown *)


(** ** C3: the foreground cap *)

(** C3, as stated, fails: over the reachable states the set can exceed
    [maxActiveSquares] by more than one.  With a cap of one, one regular and
    two curved cells: the first round activates the regular cell and a curved
    one (cap + 1), the deactivation step keeps both, and the second round
    activates the other curved cell (cap + 2). *)
Lemma C3_counterexample :
  let p := mkProps 1 3 67 1 24 40 3 in
  let squares := [Fg.mkSquare "fg-0-0" 0 0 false None;
                  Fg.mkSquare "fg-0-1" 0 1 true None;
                  Fg.mkSquare "fg-0-2" 0 2 true None] in
  let g := mkRng (tapeOf []) 0 in
  let run es := fst (Timers.run (Timers.fgRound p squares) es Timers.mounted g) in
  JSSet.size (Timers.active (run [Timers.Tick])) = maxActiveSquares p + 1 /\
  JSSet.size (Timers.active (run [Timers.Tick; Timers.Timeout; Timers.Tick]))
    = maxActiveSquares p + 2.
Proof. vm_compute. split; reflexivity. Qed.

(** C3, amended.  In every foreground round the regular path activates
    min(n, number of inactive regular cells) cells, where
    n = min(random integer in [1,3], maxActiveSquares - |activeIds|) counts
    as zero when it is negative; so it never raises the set above
    max(|activeIds|, maxActiveSquares), and it leaves the set as it is when
    the budget is not positive.  The curved path then adds at most one id:
    the set a round commits exceeds max(|activeIds|, maxActiveSquares) by at
    most one. *)
Theorem C3_foreground_round_cap (p : Props) (squares : list Fg.Square)
    (active : IdSet) (g : Rng) :
  validRng g -> NoDup (map Fg.id squares) ->
  let pool := Foreground.inactiveRegular squares active in
  let q := tape g (cursor g) in
  let afterRegular := fst (Foreground.regularPath p pool active active g) in
  let committed := fst (Foreground.tick p squares active g) in
  (1 <= floorMul q 3 + 1 <= 3)%Z /\
  JSSet.size afterRegular
    = JSSet.size active
      + Nat.min (Z.to_nat (Foreground.numToActivate p active q)) (List.length pool) /\
  JSSet.size afterRegular <= Nat.max (JSSet.size active) (maxActiveSquares p) /\
  (maxActiveSquares p <= JSSet.size active -> afterRegular = active) /\
  JSSet.size afterRegular <= JSSet.size committed <= JSSet.size afterRegular + 1 /\
  JSSet.size committed <= Nat.max (JSSet.size active) (maxActiveSquares p) + 1.
Proof.
  intros v nd pool q afterRegular committed.
  pose proof (floorMul_range q 3 (v (cursor g)) eq_refl) as fr.
  pose proof (fg_regularPath_exact p squares active g v nd) as exact.
  destruct (fg_tick_spec p squares active g)
    as (regular & curved & e & er & _ & b1 & _ & b2 & _).
  fold pool in er, exact. fold afterRegular in er, exact. fold committed in e.
  fold q in exact.
  assert (JSSet.size afterRegular = JSSet.size active + List.length regular) as s1
    by (rewrite er; unfold JSSet.size; apply length_app).
  assert (JSSet.size committed = JSSet.size afterRegular + List.length curved) as s2
    by (rewrite e, er; unfold JSSet.size; rewrite !length_app; lia).
  split; [lia|]. split; [exact exact|]. split; [lia|]. split; [|lia].
  intros full. rewrite er.
  assert (List.length regular = 0) as z by lia.
  destruct regular; [apply app_nil_r | discriminate z].
Qed.

(** C3 at a grid of one regular and two curved cells with a cap of one. *)
Lemma C3_foreground_round_cap_witness :
  let p := mkProps 1 3 67 1 24 40 3 in
  let squares := [Fg.mkSquare "fg-0-0" 0 0 false None;
                  Fg.mkSquare "fg-0-1" 0 1 true None;
                  Fg.mkSquare "fg-0-2" 0 2 true None] in
  let g := mkRng (tapeOf [2 # 3; 0; 1 # 10; 1 # 2]%Q) 0 in
  JSSet.size (fst (Foreground.tick p squares [] g)) <= Nat.max (JSSet.size (@nil string)) 1 + 1.
Proof.
  intros p squares g.
  assert (validRng g) as v.
  { apply tapeOf_valid. repeat constructor; unfold Qle, Qlt; simpl; lia. }
  assert (NoDup (map Fg.id squares)) as nd.
  { simpl. repeat constructor; simpl; intuition discriminate. }
  exact (proj2 (proj2 (proj2 (proj2 (proj2
           (C3_foreground_round_cap p squares [] g v nd)))))).
Defined.

(** ** C4: the background cap *)


(** ** C8: a cap of zero *)

(** C8.  With [maxActiveSquares = 0] the regular path of every round leaves
    the set as it is, so every id a round activates is the id of a curved
    cell; and the curved path still fires: when a curved cell is inactive and
    the draw of the 30% chance is below 0.3, the round activates one of them. *)
Theorem C8_zero_cap (p : Props) (squares : list Fg.Square) (active : IdSet) (g : Rng) :
  maxActiveSquares p = 0 -> validRng g ->
  let afterRegular :=
    Foreground.regularPath p (Foreground.inactiveRegular squares active)
      active active g in
  let chance := tape (snd afterRegular) (cursor (snd afterRegular)) in
  let committed := fst (Foreground.tick p squares active g) in
  fst afterRegular = active /\
  (forall x, In x committed -> ~ In x active ->
     exists sq, In sq squares /\ Fg.isCurved sq = true /\ Fg.id sq = x) /\
  (Foreground.inactiveCurved squares active <> [] -> below03 chance = true ->
     exists sq, In sq squares /\ Fg.isCurved sq = true /\
                ~ In (Fg.id sq) active /\ committed = active ++ [Fg.id sq]).
Proof.
  intros zero v afterRegular chance committed.
  assert (fst afterRegular = active) as same.
  { destruct (fg_regularPath_spec p (Foreground.inactiveRegular squares active)
                active g) as (fresh & e & _ & b & _).
    fold afterRegular in e. rewrite e, zero in *.
    assert (List.length fresh = 0) as z by lia.
    destruct fresh; [apply app_nil_r | discriminate z]. }
  assert (committed
          = fst (Foreground.curvedPath (Foreground.inactiveCurved squares active)
                   active (snd afterRegular))) as ec.
  { unfold committed, Foreground.tick, bind. fold afterRegular.
    destruct afterRegular as [s g1]. simpl in same. now subst s. }
  assert (forall sq, In sq (Foreground.inactiveCurved squares active) ->
            In sq squares /\ Fg.isCurved sq = true /\ ~ In (Fg.id sq) active) as pool.
  { intros sq Hsq. unfold Foreground.inactiveCurved, Foreground.inactiveSquares in Hsq.
    rewrite !filter_In in Hsq. destruct Hsq as [[Hin act] cur].
    repeat split; auto. apply (has_false_In string_dec).
    unfold has_id in act. now destruct (JSSet.has _ _ _). }
  split; [exact same|]. split.
  - intros x Hx nin. rewrite ec in Hx.
    destruct (fg_curvedPath_spec (Foreground.inactiveCurved squares active) active
                (snd afterRegular)) as (fresh & e & _ & fr).
    rewrite e in Hx. apply in_app_iff in Hx. destruct Hx as [Hx|Hx]; [tauto|].
    destruct (fr x Hx) as (_ & sq & Hsq & eid).
    exists sq. destruct (pool sq Hsq) as (a & b & _). auto.
  - intros ne lt.
    assert (validRng (snd afterRegular)) as v1
      by (eapply validRng_tape; [apply fg_regularPath_tape | exact v]).
    destruct (fg_curvedPath_fires _ active _ v1 ne lt) as (sq & Hsq & e).
    destruct (pool sq Hsq) as (a & b & c).
    exists sq. repeat split; auto.
    rewrite ec, e. unfold add_id. rewrite add_app.
    apply (has_false_In string_dec) in c. now rewrite c.
Qed.

(** C8 at a grid of one regular and one curved cell: the curved one is
    activated, the regular one is not. *)
Lemma C8_zero_cap_witness :
  let p := mkProps 1 2 50 0 24 40 3 in
  let squares := [Fg.mkSquare "fg-0-0" 0 0 false None;
                  Fg.mkSquare "fg-0-1" 0 1 true None] in
  let g := mkRng (tapeOf [2 # 3; 1 # 10; 0]%Q) 0 in
  exists sq, In sq squares /\ Fg.isCurved sq = true /\ ~ In (Fg.id sq) [] /\
             fst (Foreground.tick p squares [] g) = [] ++ [Fg.id sq].
Proof.
  intros p squares g.
  assert (validRng g) as v.
  { apply tapeOf_valid. repeat constructor; unfold Qle, Qlt; simpl; lia. }
  refine (proj2 (proj2 (C8_zero_cap p squares [] g eq_refl v)) _ _).
  - simpl. discriminate.
  - vm_compute. reflexivity.
Defined.

(** ** C9: a round never removes an id *)

(** C9.  The set a round commits holds every id of the set the round started
    from, in the foreground and in the background; a background round that
    returns early commits nothing and leaves the set as it is. *)
Theorem C9_round_monotone (p : Props) (squares : list Fg.Square)
    (bgs : list Bg.Square) (active : IdSet) (g : Rng) (x : string) :
  In x active ->
  In x (fst (Foreground.tick p squares active g)) /\
  (forall s, fst (Background.tick p bgs active g) = Some s -> In x s) /\
  (forall l, Timers.active l = active ->
     In x (Timers.active (fst (Timers.step (Timers.fgRound p squares) Timers.Tick l g))) /\
     In x (Timers.active (fst (Timers.step (Timers.bgRound p bgs) Timers.Tick l g)))).
Proof.
  intros Hx.
  assert (In x (fst (Foreground.tick p squares active g))) as fgx.
  { destruct (fg_tick_spec p squares active g) as (regular & curved & e & _).
    rewrite e. apply in_app_iff. auto. }
  assert (forall s, fst (Background.tick p bgs active g) = Some s -> In x s) as bgx.
  { intros s es. pose proof (bg_tick_spec p bgs active g) as H. rewrite es in H.
    destruct H as (fresh & -> & _). apply in_app_iff. auto. }
  split; [exact fgx|]. split; [exact bgx|].
  intros l <-. cbn [Timers.step].
  destruct (Timers.intervalLive l); [|split; exact Hx].
  unfold bind, Timers.fgRound, Timers.bgRound, bind, ret. split.
  - destruct (Foreground.tick p squares (Timers.active l) g) as [s g1].
    exact fgx.
  - destruct (Background.tick p bgs (Timers.active l) g) as [[s|] g1];
      [apply bgx; reflexivity | exact Hx].
Qed.

(** C9 at a grid of two cells, the first of them active. *)
Lemma C9_round_monotone_witness :
  let squares := [Fg.mkSquare "fg-0-0" 0 0 false None;
                  Fg.mkSquare "fg-0-1" 0 1 false None] in
  In "fg-0-0"%string ["fg-0-0"%string] /\
  In "fg-0-0"%string
     (fst (Foreground.tick defaultProps squares ["fg-0-0"%string]
             (mkRng (tapeOf []) 0))).
Proof.
  intros squares.
  assert (In "fg-0-0"%string ["fg-0-0"%string]) as H by (simpl; auto).
  split; [exact H|].
  exact (proj1 (C9_round_monotone defaultProps squares [] ["fg-0-0"%string]
                  (mkRng (tapeOf []) 0) "fg-0-0"%string H)).
Defined.

(** ** C10: how many ids a round adds *)

Lemma filter_new_length (active fresh : IdSet) :
  List.length (filter (fun x => negb (has_id x active)) (active ++ fresh))
  <= List.length fresh.
Proof.
  rewrite filter_app, length_app.
  assert (filter (fun x => negb (has_id x active)) active = []) as ->.
  { assert (forall l, incl l active ->
              filter (fun x => negb (has_id x active)) l = []) as H.
    { induction l as [|y l IH]; intros inc; [reflexivity|]. simpl.
      assert (has_id y active = true) as ->
        by (apply (has_In string_dec), inc; simpl; auto).
      simpl. apply IH. intros z Hz. apply inc. simpl. auto. }
    apply H, incl_refl. }
  simpl. apply filter_length_le.
Qed.

(** C10.  Whatever the state and the draws, a foreground round appends at
    most three ids by the regular path and at most one by the curved path, so
    at most 4 ids of the committed set were not in the set before; a
    background round appends at most 2. *)
Theorem C10_round_additions (p : Props) (squares : list Fg.Square)
    (bgs : list Bg.Square) (active : IdSet) (g : Rng) :
  validRng g ->
  (exists regular curved,
     fst (Foreground.tick p squares active g) = active ++ regular ++ curved /\
     List.length regular <= 3 /\ List.length curved <= 1) /\
  List.length (filter (fun x => negb (has_id x active))
                 (fst (Foreground.tick p squares active g))) <= 4 /\
  (forall s, fst (Background.tick p bgs active g) = Some s ->
     (exists fresh, s = active ++ fresh /\ List.length fresh <= 2) /\
     List.length (filter (fun x => negb (has_id x active)) s) <= 2).
Proof.
  intros v.
  destruct (fg_tick_spec p squares active g)
    as (regular & curved & e & _ & _ & _ & b3 & b1 & _).
  specialize (b3 v). split; [exists regular, curved; auto|]. split.
  - rewrite e. pose proof (filter_new_length active (regular ++ curved)) as H.
    rewrite length_app in H. lia.
  - intros s es. pose proof (bg_tick_spec p bgs active g) as H. rewrite es in H.
    destruct H as (fresh & -> & _ & _ & b2 & _). specialize (b2 v). split.
    + exists fresh. auto.
    + pose proof (filter_new_length active fresh). lia.
Qed.

(** C10 at a grid of three cells and the default props. *)
Lemma C10_round_additions_witness :
  let squares := [Fg.mkSquare "fg-0-0" 0 0 false None;
                  Fg.mkSquare "fg-0-1" 0 1 false None;
                  Fg.mkSquare "fg-0-2" 0 2 true None] in
  let g := mkRng (tapeOf [2 # 3; 1 # 2; 0; 1 # 10; 0]%Q) 0 in
  validRng g /\
  List.length (filter (fun x => negb (has_id x []))
                 (fst (Foreground.tick defaultProps squares [] g))) <= 4.
Proof.
  intros squares g.
  assert (validRng g) as v.
  { apply tapeOf_valid. repeat constructor; unfold Qle, Qlt; simpl; lia. }
  split; [exact v|].
  exact (proj1 (proj2 (C10_round_additions defaultProps squares [] [] g v))).
Defined.

(** ** C6 and C7: the layouts *)

Lemma fgShape_Rounded (sq : Fg.Square) :
  Render.fgShape sq = Render.Rounded <-> Fg.isCurved sq = true.
Proof.
  unfold Render.fgShape, Render.fgShapeClass.
  destruct (Fg.isCurved sq); vm_compute; split; congruence.
Qed.

(** C6.  For a percentage between 0 and 100 the layout effect returns as soon
    as the draws of the sampling loop have hit enough distinct cells, and the
    foreground layout it returns has [rows * cols] cells, in row-major order,
    the cell of row r and column c with the id [fg-r-c], all ids different,
    and exactly floor(rows * cols * curvedPercentage / 100) cells curved
    (rendered rounded).  For a 2 by 2 grid with no curved cells the ids are
    [fg-0-0], [fg-0-1], [fg-1-0] and [fg-1-1]. *)
Theorem C6_foreground_layout (p : Props) (fuel : nat) (g : Rng) :
  (0 <= curvedPercentage p <= 100)%Z -> validRng g ->
  ((Layout.curvedCount p
      <= Z.of_nat (Layout.distinctHits fuel (Layout.totalSquares p) g))%Z ->
   exists fg bg, fst (Layout.generate fuel p g) = Some (fg, bg)) /\
  (forall fg bg,
     fst (Layout.generate fuel p g) = Some (fg, bg) ->
     List.length fg = rows p * cols p /\
     NoDup (map Fg.id fg) /\
     (forall sq, In sq fg ->
        Fg.id sq = cellId "fg" (Fg.row sq) (Fg.col sq) /\
        Fg.row sq < rows p /\ Fg.col sq < cols p /\
        (Render.fgShape sq = Render.Rounded <-> Fg.isCurved sq = true)) /\
     (forall r c, r < rows p -> c < cols p ->
        exists sq, nth_error fg (r * cols p + c) = Some sq /\
                   Fg.id sq = cellId "fg" r c /\ Fg.row sq = r /\ Fg.col sq = c) /\
     Z.of_nat (List.length (filter Fg.isCurved fg))
       = (Z.of_nat (rows p * cols p) * curvedPercentage p / 100)%Z) /\
  (rows p = 2 -> cols p = 2 -> curvedPercentage p = 0%Z ->
   exists fg bg,
     fst (Layout.generate fuel p g) = Some (fg, bg) /\
     List.length fg = 4 /\
     filter Fg.isCurved fg = [] /\
     map Fg.id fg = ["fg-0-0"; "fg-0-1"; "fg-1-0"; "fg-1-1"]%string).
Proof.
  intros pc v. split; [apply generate_returns|]. split.
  - intros fg bg e.
    destruct (generate_foreground fuel p g fg bg pc v e) as (len & nd & cells & nth & cnt).
    split; [exact len|]. split; [exact nd|]. split; [|split; [exact nth | exact cnt]].
    intros sq Hsq. destruct (cells sq Hsq) as (a & b & c).
    repeat split; auto; apply fgShape_Rounded.
  - intros r2 c2 p0.
    assert (Layout.curvedCount p = 0%Z) as k0
      by (unfold Layout.curvedCount; rewrite p0, Z.mul_0_r; reflexivity).
    destruct (generate_returns fuel p g) as (fg & bg & e); [rewrite k0; lia|].
    exists fg, bg. split; [exact e|].
    destruct (generate_foreground fuel p g fg bg pc v e) as (len & _ & _ & _ & cnt).
    destruct (generate_inv fuel p g fg bg e) as (_ & _ & _ & ids & _).
    rewrite k0 in cnt. rewrite r2, c2 in len, ids.
    split; [exact len|]. split; [|exact ids].
    destruct (filter Fg.isCurved fg); [reflexivity | discriminate cnt].
Qed.

(** C6 at a 2 by 2 grid, half of it curved: three draws hit two cells. *)
Lemma C6_foreground_layout_witness :
  let p := mkProps 2 2 50 8 1 2 3 in
  let g := mkRng (tapeOf [0; 1 # 2; 3 # 4]%Q) 0 in
  (0 <= curvedPercentage p <= 100)%Z /\ validRng g /\
  (Layout.curvedCount p <= Z.of_nat (Layout.distinctHits 5 (Layout.totalSquares p) g))%Z /\
  exists fg bg, fst (Layout.generate 5 p g) = Some (fg, bg).
Proof.
  intros p g.
  assert (0 <= curvedPercentage p <= 100)%Z as pc by (simpl; lia).
  assert (validRng g) as v.
  { apply tapeOf_valid. repeat constructor; unfold Qle, Qlt; simpl; lia. }
  assert (Layout.curvedCount p
            <= Z.of_nat (Layout.distinctHits 5 (Layout.totalSquares p) g))%Z as hits
    by (vm_compute; discriminate).
  split; [exact pc|]. split; [exact v|]. split; [exact hits|].
  exact (proj1 (C6_foreground_layout p 5 g pc v) hits).
Defined.

(** C7.  Whenever the layout effect returns (and it returns as soon as the
    sampling loop of the foreground has stopped), the background layout has
    [backgroundRows * backgroundCols] cells with different ids, the cell of
    row r and column c with the id [bg-r-c], and none of them is rendered
    rounded, active or not. *)
Theorem C7_background_layout (p : Props) (fuel : nat) (g : Rng) :
  ((Layout.curvedCount p
      <= Z.of_nat (Layout.distinctHits fuel (Layout.totalSquares p) g))%Z ->
   exists fg bg, fst (Layout.generate fuel p g) = Some (fg, bg)) /\
  (forall fg bg,
     fst (Layout.generate fuel p g) = Some (fg, bg) ->
     List.length bg = backgroundRows p * backgroundCols p /\
     NoDup (map Bg.id bg) /\
     (forall sq, In sq bg ->
        Bg.id sq = cellId "bg" (Bg.row sq) (Bg.col sq) /\
        Bg.row sq < backgroundRows p /\ Bg.col sq < backgroundCols p) /\
     (forall sq isActive, In sq bg -> Render.bgShape isActive sq = Render.Regular)).
Proof.
  split; [apply generate_returns|].
  intros fg bg e. exact (generate_background fuel p g fg bg e).
Qed.

(** C7 at a background grid of one row and two columns. *)
Lemma C7_background_layout_witness :
  let p := mkProps 2 2 50 8 1 2 3 in
  let g := mkRng (tapeOf [0; 1 # 2; 3 # 4]%Q) 0 in
  (Layout.curvedCount p <= Z.of_nat (Layout.distinctHits 5 (Layout.totalSquares p) g))%Z /\
  exists fg bg, fst (Layout.generate 5 p g) = Some (fg, bg).
Proof.
  intros p g.
  assert (Layout.curvedCount p
            <= Z.of_nat (Layout.distinctHits 5 (Layout.totalSquares p) g))%Z as hits
    by (vm_compute; discriminate).
  split; [exact hits|].
  exact (proj1 (C7_background_layout p 5 g) hits).
Defined.

(** ** C5: stale ids after a new layout *)

Lemma matchesCell_In (i : string) (sqs : list Fg.Square) :
  Component.matchesCell i sqs = true <-> In i (map Fg.id sqs).
Proof.
  unfold Component.matchesCell. rewrite existsb_exists, in_map_iff. split.
  - intros (sq & Hsq & e). exists sq. destruct (string_dec i (Fg.id sq)); [auto|discriminate].
  - intros (sq & e & Hsq). exists sq. split; [exact Hsq|].
    destruct (string_dec i (Fg.id sq)); [reflexivity | congruence].
Qed.

(** C5, as stated, fails: the ids are positional.  A 1 by 1 grid is laid out,
    a round activates [fg-0-0], and the layout is generated again for a 2 by 2
    grid: the set still holds [fg-0-0], and that id matches the first cell of
    the new layout, which the renderer therefore shows active. *)
Lemma C5_counterexample :
  let p1 := mkProps 1 1 0 8 1 1 3 in
  let p2 := mkProps 2 2 0 8 1 1 3 in
  let g := mkRng (tapeOf []) 0 in
  exists st1 g1 active g2 st2 g3,
    Component.layoutEffect 0 p1 Component.initial g = (Some st1, g1) /\
    Foreground.tick p1 (Component.squares st1) (Component.activeSquares st1) g1
      = (active, g2) /\
    Component.layoutEffect 0 p2
      (Component.mkState (Component.squares st1) active
         (Component.backgroundSquares st1) (Component.activeBackgroundSquares st1)) g2
      = (Some st2, g3) /\
    In "fg-0-0"%string (Component.activeSquares st2) /\
    Component.matchesCell "fg-0-0" (Component.squares st2) = true /\
    exists sq, nth_error (Component.squares st2) 0 = Some sq /\
               Render.fgIsActive (Component.activeSquares st2) sq = true.
Proof.
  intros p1 p2 g. do 6 eexists.
  split; [vm_compute; reflexivity|].
  split; [vm_compute; reflexivity|].
  split; [vm_compute; reflexivity|].
  split; [simpl; auto|]. split; [vm_compute; reflexivity|].
  eexists. split; vm_compute; reflexivity.
Qed.

(** C5, amended.  The layout effect leaves both active sets as they are, and
    a stale id [fg-r-c] matches a cell of the new layout exactly when
    r < rows and c < cols (likewise [bg-r-c] in the background): only the
    stale ids of positions outside the new grid match no cell; the others
    match the cell at the same position, which is rendered active. *)
Theorem C5_stale_ids (fuel : nat) (p : Props) (st st' : Component.State) (g : Rng) :
  fst (Component.layoutEffect fuel p st g) = Some st' ->
  Component.activeSquares st' = Component.activeSquares st /\
  Component.activeBackgroundSquares st' = Component.activeBackgroundSquares st /\
  (forall r c,
     Component.matchesCell (cellId "fg" r c) (Component.squares st') = true
     <-> r < rows p /\ c < cols p) /\
  (forall r c,
     In (cellId "bg" r c) (map Bg.id (Component.backgroundSquares st'))
     <-> r < backgroundRows p /\ c < backgroundCols p) /\
  (forall r c,
     In (cellId "fg" r c) (Component.activeSquares st) ->
     r < rows p -> c < cols p ->
     exists sq, In sq (Component.squares st') /\ Fg.id sq = cellId "fg" r c /\
                Render.fgIsActive (Component.activeSquares st') sq = true).
Proof.
  unfold Component.layoutEffect, bind.
  destruct (Layout.generate fuel p g) as [[[fg bg]|] g1] eqn:E; [|discriminate].
  unfold ret. simpl. intros [= <-]. simpl.
  assert (fst (Layout.generate fuel p g) = Some (fg, bg)) as e by (rewrite E; reflexivity).
  destruct (generate_inv fuel p g fg bg e) as (_ & _ & _ & ids & _ & _ & bids & _).
  assert (forall r c, In (cellId "fg" r c) (map Fg.id fg) <-> r < rows p /\ c < cols p)
    as pos by (intros r c; rewrite ids; apply grid_ids_In).
  split; [reflexivity|]. split; [reflexivity|]. split; [|split].
  - intros r c. rewrite matchesCell_In. apply pos.
  - intros r c. rewrite bids. apply grid_ids_In.
  - intros r c act Hr Hc.
    assert (In (cellId "fg" r c) (map Fg.id fg)) as H by (apply pos; auto).
    apply in_map_iff in H. destruct H as (sq & eid & Hsq).
    exists sq. split; [exact Hsq|]. split; [exact eid|].
    unfold Render.fgIsActive. rewrite eid. apply (has_In string_dec). exact act.
Qed.

(** C5 at a new 2 by 2 layout, with the stale ids [fg-0-0] and [fg-5-5]. *)
Lemma C5_stale_ids_witness :
  let p := mkProps 2 2 0 8 1 1 3 in
  let g := mkRng (tapeOf []) 0 in
  let st := Component.mkState [] ["fg-0-0"%string; "fg-5-5"%string] [] [] in
  let st' := match fst (Component.layoutEffect 0 p st g) with
             | Some s => s
             | None => st
             end in
  fst (Component.layoutEffect 0 p st g) = Some st' /\
  Component.activeSquares st' = ["fg-0-0"%string; "fg-5-5"%string] /\
  (Component.matchesCell (cellId "fg" 5 5) (Component.squares st') = true
   <-> 5 < 2 /\ 5 < 2).
Proof.
  intros p g st st'.
  assert (fst (Component.layoutEffect 0 p st g) = Some st') as e
    by (vm_compute; reflexivity).
  split; [exact e|].
  split; [exact (proj1 (C5_stale_ids 0 p st st' g e))|].
  exact (proj1 (proj2 (proj2 (C5_stale_ids 0 p st st' g e))) 5 5).
Defined.

(* ================================================================== *)
(** * Further properties of the code *)
(* ================================================================== *)

(** ** [getRandomFrom] and the colors of the cells *)

Lemma getRandomFrom_valid {A : Type} (arr : list A) (g : Rng) :
  validRng g -> arr <> [] ->
  exists x, fst (getRandomFrom arr g) = Some x /\ In x arr.
Proof.
  unfold getRandomFrom, bind, random, ret. cbn [fst snd]. intros v ne.
  set (i := floorMul _ _).
  assert (0 <= i < Z.of_nat (List.length arr))%Z as rg.
  { apply floorMul_range; [apply v|]. destruct arr; [congruence|].
    cbn [List.length]. lia. }
  unfold index. destruct (Z.ltb_spec i 0); [lia|].
  destruct (nth_error arr (Z.to_nat i)) as [x|] eqn:E.
  - exists x. split; [reflexivity | eapply nth_error_In; exact E].
  - apply nth_error_None in E. lia.
Qed.

(** X1.  [getRandomFrom] returns [undefined] on an empty array, and a member
    of the array when the array is not empty and the draw lies in [0, 1); it
    reads one draw in both cases. *)
Theorem getRandomFrom_member {A : Type} (arr : list A) (g : Rng) :
  (arr = [] -> fst (getRandomFrom arr g) = None) /\
  (validRng g -> arr <> [] ->
   exists x, fst (getRandomFrom arr g) = Some x /\ In x arr) /\
  snd (getRandomFrom arr g) = mkRng (tape g) (S (cursor g)).
Proof.
  split; [|split; [apply getRandomFrom_valid | reflexivity]].
  intros ->. unfold getRandomFrom, bind, random, ret, index. cbn [fst].
  destruct (_ <? 0)%Z; [reflexivity|]. now destruct (Z.to_nat _).
Qed.

(** X1 at the palette. *)
Lemma getRandomFrom_member_witness :
  let g := mkRng (tapeOf [1 # 2]%Q) 0 in
  validRng g /\ DEFAULT_COLORS <> [] /\
  exists x, fst (getRandomFrom DEFAULT_COLORS g) = Some x /\ In x DEFAULT_COLORS.
Proof.
  intros g.
  assert (validRng g) as v.
  { apply tapeOf_valid. repeat constructor; unfold Qle, Qlt; simpl; lia. }
  assert (DEFAULT_COLORS <> []) as ne by discriminate.
  split; [exact v|]. split; [exact ne|].
  exact (proj1 (proj2 (getRandomFrom_member DEFAULT_COLORS g)) v ne).
Defined.

Lemma forRange_keeps {S : Type} (P : S -> Prop) (body : nat -> S -> M S) :
  (forall i s g, validRng g -> P s ->
     P (fst (body i s g)) /\ validRng (snd (body i s g))) ->
  forall range s g, validRng g -> P s ->
    P (fst (forRange range body s g)) /\ validRng (snd (forRange range body s g)).
Proof.
  intros step. induction range as [|i range IH]; intros s g v Ps; cbn [forRange].
  - unfold ret. auto.
  - unfold bind. destruct (step i s g v Ps) as [Ps' v'].
    destruct (body i s g) as [s' g']. apply IH; assumption.
Qed.

Lemma sampleCurved_tape (total count : Z) (fuel : nat) :
  forall (s : list Z) (g : Rng),
    tape (snd (Layout.sampleCurved fuel total count s g)) = tape g.
Proof.
  induction fuel as [|fuel IH]; intros s g; simpl;
    destruct (_ <? count)%Z; unfold ret; try reflexivity.
  unfold bind, random. rewrite IH. reflexivity.
Qed.

Lemma palette_draw (g : Rng) :
  validRng g ->
  exists c, index DEFAULT_COLORS (floorMul (tape g (cursor g)) 5) = Some c /\
            In c DEFAULT_COLORS.
Proof.
  intros v.
  destruct (getRandomFrom_valid DEFAULT_COLORS g v) as (c & e & Hc);
    [discriminate|].
  exists c. split; [exact e | exact Hc].
Qed.

(** ** The layout effect *)

Lemma generate_parts (fuel : nat) (p : Props) (g : Rng) :
  Layout.generate fuel p g
  = match Layout.sampleCurved fuel (Layout.totalSquares p) (Layout.curvedCount p) [] g with
    | (None, g1) => (None, g1)
    | (Some ci, g1) =>
        let (fg, g2) := Layout.fgSquares (rows p) (cols p) ci g1 in
        let (bg, g3) := Layout.bgSquares (backgroundRows p) (backgroundCols p) g2 in
        (Some (fg, bg), g3)
    end.
Proof.
  unfold Layout.generate. unfold bind at 1.
  destruct (Layout.sampleCurved _ _ _ _ g) as [[ci|] g1]; [|reflexivity].
  unfold bind, ret. destruct (Layout.fgSquares _ _ _ g1) as [fg g2].
  destruct (Layout.bgSquares _ _ g2) as [bg g3]. reflexivity.
Qed.

(** X2.  When every draw lies in [0, 1), every cell of both layouts has a
    color of the palette: no cell is left with [undefined]. *)
Theorem layout_colors (fuel : nat) (p : Props) (g : Rng)
    (fg : list Fg.Square) (bg : list Bg.Square) :
  validRng g ->
  fst (Layout.generate fuel p g) = Some (fg, bg) ->
  (forall sq, In sq fg -> exists c, Fg.color sq = Some c /\ In c DEFAULT_COLORS) /\
  (forall sq, In sq bg -> exists c, Bg.color sq = Some c /\ In c DEFAULT_COLORS).
Proof.
  intros v. rewrite generate_parts.
  pose proof (sampleCurved_tape (Layout.totalSquares p) (Layout.curvedCount p)
                fuel [] g) as tp.
  destruct (Layout.sampleCurved _ _ _ _ g) as [[ci|] g1]; [|discriminate].
  simpl in tp. assert (validRng g1) as v1 by (eapply validRng_tape; eauto).
  (* the foreground loops *)
  assert (forall row i (st : list Fg.Square * Z) h, validRng h ->
            Forall (fun sq => exists c, Fg.color sq = Some c /\ In c DEFAULT_COLORS)
                   (fst st) ->
            Forall (fun sq => exists c, Fg.color sq = Some c /\ In c DEFAULT_COLORS)
                   (fst (fst (Layout.pushFg ci row i st h))) /\
            validRng (snd (Layout.pushFg ci row i st h))) as pushF.
  { intros row i st h vh fa.
    unfold Layout.pushFg, bind, getRandomFrom, bind, random, ret. cbn [fst snd].
    split; [|apply validRng_step, vh].
    apply Forall_app. split; [exact fa|]. constructor; [|constructor].
    cbn [Fg.color]. apply (palette_draw h vh). }
  assert (forall row i (acc : list Bg.Square) h, validRng h ->
            Forall (fun sq => exists c, Bg.color sq = Some c /\ In c DEFAULT_COLORS) acc ->
            Forall (fun sq => exists c, Bg.color sq = Some c /\ In c DEFAULT_COLORS)
                   (fst (Layout.pushBg row i acc h)) /\
            validRng (snd (Layout.pushBg row i acc h))) as pushB.
  { intros row i acc h vh fa.
    unfold Layout.pushBg, bind, getRandomFrom, bind, random, ret. cbn [fst snd].
    split; [|apply validRng_step, vh].
    apply Forall_app. split; [exact fa|]. constructor; [|constructor].
    cbn [Bg.color]. apply (palette_draw h vh). }
  unfold Layout.fgSquares, bind, ret.
  destruct (forRange_keeps _ _
              (fun row st h vh fa =>
                 forRange_keeps _ _ (pushF row) (seq 0 (cols p)) st h vh fa)
              (seq 0 (rows p)) ([], 0%Z) g1 v1 (Forall_nil _)) as [Ffg v2].
  destruct (forRange (seq 0 (rows p)) _ ([], 0%Z) g1) as [st g2].
  cbn [fst snd] in Ffg, v2. unfold Layout.bgSquares.
  destruct (forRange_keeps _ _
              (fun row acc h vh fa =>
                 forRange_keeps _ _ (pushB row) (seq 0 (backgroundCols p)) acc h vh fa)
              (seq 0 (backgroundRows p)) [] g2 v2 (Forall_nil _)) as [Fbg _].
  destruct (forRange (seq 0 (backgroundRows p)) _ [] g2) as [bgs g3].
  cbn [fst snd] in *. intros [= <- <-].
  rewrite Forall_forall in Ffg, Fbg. split; assumption.
Qed.

(** X2 at a 2 by 2 grid over a background of one row and two columns. *)
Lemma layout_colors_witness :
  let p := mkProps 2 2 50 8 1 2 3 in
  let g := mkRng (tapeOf [0; 1 # 2; 3 # 4]%Q) 0 in
  let fg := match fst (Layout.generate 5 p g) with Some r => fst r | None => [] end in
  let bg := match fst (Layout.generate 5 p g) with Some r => snd r | None => [] end in
  validRng g /\ fst (Layout.generate 5 p g) = Some (fg, bg) /\
  forall sq, In sq fg -> exists c, Fg.color sq = Some c /\ In c DEFAULT_COLORS.
Proof.
  intros p g fg bg.
  assert (validRng g) as v.
  { apply tapeOf_valid. repeat constructor; unfold Qle, Qlt; simpl; lia. }
  assert (fst (Layout.generate 5 p g) = Some (fg, bg)) as e by (vm_compute; reflexivity).
  split; [exact v|]. split; [exact e|].
  exact (proj1 (layout_colors 5 p g fg bg v e)).
Defined.

Lemma positions_of_ids (l l' : list Fg.Square) :
  map Fg.id l = map Fg.id l' ->
  Forall (fun sq => Fg.id sq = cellId "fg" (Fg.row sq) (Fg.col sq)) l ->
  Forall (fun sq => Fg.id sq = cellId "fg" (Fg.row sq) (Fg.col sq)) l' ->
  map Fg.row l = map Fg.row l' /\ map Fg.col l = map Fg.col l'.
Proof.
  revert l'. induction l as [|sq l IH]; intros [|sq' l'] e fa fa';
    try discriminate e; [split; reflexivity|].
  simpl in e. injection e as e1 e2.
  inversion fa as [|? ? w fal]; inversion fa' as [|? ? w' fal']; subst.
  destruct (IH l' e2 fal fal') as [er ec].
  rewrite w, w' in e1. apply cellId_inj in e1. destruct e1 as [r c].
  simpl. split; f_equal; assumption.
Qed.

(** X3.  The ids and the positions of the cells do not depend on the draws,
    on the percentage of curved cells or on the caps: two runs of the layout
    effect for grids of the same dimensions return layouts with the same ids
    in the same order, in both layers. *)
Theorem layout_ids_fixed (p p' : Props) (fuel fuel' : nat) (g g' : Rng)
    (fg fg' : list Fg.Square) (bg bg' : list Bg.Square) :
  rows p = rows p' -> cols p = cols p' ->
  backgroundRows p = backgroundRows p' -> backgroundCols p = backgroundCols p' ->
  fst (Layout.generate fuel p g) = Some (fg, bg) ->
  fst (Layout.generate fuel' p' g') = Some (fg', bg') ->
  map Fg.id fg = map Fg.id fg' /\ map Bg.id bg = map Bg.id bg' /\
  map Fg.row fg = map Fg.row fg' /\ map Fg.col fg = map Fg.col fg'.
Proof.
  intros er ec ebr ebc e e'.
  destruct (generate_inv _ _ _ _ _ e) as (_ & _ & _ & ids & _ & fa & bids & _).
  destruct (generate_inv _ _ _ _ _ e') as (_ & _ & _ & ids' & _ & fa' & bids' & _).
  assert (map Fg.id fg = map Fg.id fg') as eq by (rewrite ids, ids', er, ec; reflexivity).
  split; [exact eq|]. split; [rewrite bids, bids', ebr, ebc; reflexivity|].
  apply positions_of_ids; assumption.
Qed.

(** X3 at two 2 by 2 grids with different percentages and different draws. *)
Lemma layout_ids_fixed_witness :
  let p := mkProps 2 2 50 8 1 2 3 in
  let p' := mkProps 2 2 0 1 1 2 0 in
  let g := mkRng (tapeOf [0; 1 # 2; 3 # 4]%Q) 0 in
  let g' := mkRng (tapeOf [9 # 10; 1 # 3]%Q) 0 in
  let out q f h := match fst (Layout.generate f q h) with
                   | Some r => r
                   | None => ([], [])
                   end in
  fst (Layout.generate 5 p g) = Some (out p 5 g) /\
  fst (Layout.generate 0 p' g') = Some (out p' 0 g') /\
  map Fg.id (fst (out p 5 g)) = map Fg.id (fst (out p' 0 g')).
Proof.
  intros p p' g g' out.
  assert (fst (Layout.generate 5 p g) = Some (fst (out p 5 g), snd (out p 5 g))) as e
    by (vm_compute; reflexivity).
  assert (fst (Layout.generate 0 p' g') = Some (fst (out p' 0 g'), snd (out p' 0 g')))
    as e' by (vm_compute; reflexivity).
  split; [rewrite e; f_equal; vm_compute; reflexivity|].
  split; [rewrite e'; f_equal; vm_compute; reflexivity|].
  exact (proj1 (layout_ids_fixed p p' 5 0 g g' _ _ _ _
                  eq_refl eq_refl eq_refl eq_refl e e')).
Defined.

Lemma indices_size (total : Z) (s : list Z) :
  NoDup s -> (forall x, In x s -> (0 <= x < total)%Z) ->
  (Z.of_nat (List.length s) <= Z.max 0 total)%Z.
Proof.
  intros nd rg.
  assert (List.length s <= List.length (map Z.of_nat (seq 0 (Z.to_nat total)))) as H.
  { apply NoDup_incl_length; [exact nd|]. intros x Hx. apply in_map_iff.
    exists (Z.to_nat x). pose proof (rg x Hx). split; [lia|]. apply in_seq. lia. }
  rewrite length_map, length_seq in H. lia.
Qed.

Lemma sampleCurved_stuck (total count : Z) (fuel : nat) :
  forall (s : list Z) (g : Rng),
    validRng g -> (0 < total < count)%Z ->
    NoDup s -> (forall x, In x s -> (0 <= x < total)%Z) ->
    fst (Layout.sampleCurved fuel total count s g) = None.
Proof.
  induction fuel as [|fuel IH]; intros s g v tc nd rg; simpl;
    pose proof (indices_size total s nd rg) as sz;
    destruct (Z.ltb_spec (Z.of_nat (JSSet.size s)) count) as [lt|ge];
    unfold JSSet.size in *; try lia; [reflexivity|].
  unfold bind, random.
  pose proof (floorMul_range _ total (v (cursor g)) (proj1 tc)) as fr.
  apply IH; auto.
  - apply add_NoDup, nd.
  - intros x Hx. apply add_In in Hx. destruct Hx as [->|Hx]; auto.
Qed.

(** X4.  When the percentage asks for more curved cells than the grid has
    (a percentage above 100 on a grid that is not empty), the sampling loop
    never stops: with draws in [0, 1) the set holds at most [rows * cols]
    indices, so the layout effect returns for no number of iterations. *)
Theorem layout_never_returns (p : Props) (g : Rng) :
  validRng g ->
  (Layout.totalSquares p < Layout.curvedCount p)%Z ->
  forall fuel, fst (Layout.generate fuel p g) = None.
Proof.
  intros v gt fuel. rewrite generate_parts.
  assert (0 < Layout.totalSquares p)%Z as pos.
  { unfold Layout.curvedCount, Layout.totalSquares in *.
    destruct (rows p * cols p) as [|n]; [|clear; lia].
    rewrite Z.mul_0_l in gt. change (0 / 100)%Z with 0%Z in gt. lia. }
  pose proof (sampleCurved_stuck (Layout.totalSquares p) (Layout.curvedCount p)
                fuel [] g v (conj pos gt) (NoDup_nil Z)
                (fun x (H : In x []) => match H with end)) as H.
  destruct (Layout.sampleCurved _ _ _ _ g) as [[ci|] g1]; [discriminate H|reflexivity].
Qed.

(** X4 at a grid of one cell and a percentage of 200. *)
Lemma layout_never_returns_witness :
  let p := mkProps 1 1 200 8 1 1 3 in
  let g := mkRng (tapeOf []) 0 in
  validRng g /\ (Layout.totalSquares p < Layout.curvedCount p)%Z /\
  fst (Layout.generate 1000 p g) = None.
Proof.
  intros p g.
  assert (validRng g) as v by (apply tapeOf_valid; constructor).
  assert (Layout.totalSquares p < Layout.curvedCount p)%Z as gt by reflexivity.
  split; [exact v|]. split; [exact gt|].
  exact (layout_never_returns p g v gt 1000).
Defined.

Lemma forRange_draws {S : Type} (body : nat -> S -> M S) (k : nat) :
  (forall i s g, snd (body i s g) = mkRng (tape g) (cursor g + k)) ->
  forall range s g,
    snd (forRange range body s g) = mkRng (tape g) (cursor g + k * List.length range).
Proof.
  intros step. induction range as [|i range IH]; intros s g; cbn [forRange List.length].
  - unfold ret. simpl. destruct g. simpl. f_equal. lia.
  - unfold bind. pose proof (step i s g) as H.
    destruct (body i s g) as [s' g']. simpl in H. rewrite IH, H. simpl.
    f_equal. lia.
Qed.

(** X5.  With a percentage of zero or less, or on an empty grid, the
    sampling loop draws nothing: the layout effect returns whatever the
    draws are, no cell is curved, and [Math.random()] is called once per
    cell, [rows * cols + backgroundRows * backgroundCols] times in all. *)
Theorem layout_without_sampling (p : Props) (fuel : nat) (g : Rng) :
  (curvedPercentage p <= 0)%Z \/ rows p * cols p = 0 ->
  exists fg bg,
    Layout.generate fuel p g
    = (Some (fg, bg),
       mkRng (tape g)
         (cursor g + rows p * cols p + backgroundRows p * backgroundCols p)) /\
    Forall (fun sq => Fg.isCurved sq = false) fg.
Proof.
  intros H.
  assert (Layout.curvedCount p <= 0)%Z as k0.
  { unfold Layout.curvedCount, Layout.totalSquares. destruct H as [H|H].
    - apply Z.div_le_upper_bound; [lia|]. nia.
    - rewrite H, Z.mul_0_l. apply Z.le_refl. }
  assert (Layout.sampleCurved fuel (Layout.totalSquares p) (Layout.curvedCount p) [] g
          = (Some [], g)) as es.
  { destruct fuel; simpl; destruct (Z.ltb_spec 0 (Layout.curvedCount p));
      try lia; reflexivity. }
  pose proof (generate_parts fuel p g) as gp. rewrite es in gp.
  assert (snd (Layout.fgSquares (rows p) (cols p) [] g)
          = mkRng (tape g) (cursor g + rows p * cols p)) as c1.
  { unfold Layout.fgSquares, bind, ret.
    assert (forall i s h,
              snd (forRange (seq 0 (cols p)) (Layout.pushFg [] i) s h)
              = mkRng (tape h) (cursor h + cols p)) as inner.
    { intros i s h.
      rewrite (forRange_draws (Layout.pushFg [] i) 1), length_seq; [f_equal; lia|].
      intros j s' h'. unfold Layout.pushFg, bind, getRandomFrom, bind, random, ret.
      simpl. f_equal. lia. }
    pose proof (forRange_draws _ (cols p) inner (seq 0 (rows p)) ([], 0%Z) g) as D.
    rewrite length_seq in D.
    destruct (forRange (seq 0 (rows p)) _ ([], 0%Z) g) as [st g2].
    cbn [snd] in *. rewrite D. f_equal. lia. }
  destruct (Layout.fgSquares (rows p) (cols p) [] g) as [fg g2]. cbn [snd] in c1.
  assert (snd (Layout.bgSquares (backgroundRows p) (backgroundCols p) g2)
          = mkRng (tape g2) (cursor g2 + backgroundRows p * backgroundCols p)) as c2.
  { unfold Layout.bgSquares.
    assert (forall i s h,
              snd (forRange (seq 0 (backgroundCols p)) (Layout.pushBg i) s h)
              = mkRng (tape h) (cursor h + backgroundCols p)) as inner.
    { intros i s h.
      rewrite (forRange_draws (Layout.pushBg i) 1), length_seq; [f_equal; lia|].
      intros j s' h'. unfold Layout.pushBg, bind, getRandomFrom, bind, random, ret.
      simpl. f_equal. lia. }
    rewrite (forRange_draws _ (backgroundCols p) inner), length_seq.
    f_equal. lia. }
  destruct (Layout.bgSquares _ _ g2) as [bg g3]. cbn [snd] in c2.
  exists fg, bg. split.
  - rewrite gp. subst g3 g2. reflexivity.
  - assert (fst (Layout.generate fuel p g) = Some (fg, bg)) as e
      by (rewrite gp; reflexivity).
    destruct (generate_inv _ _ _ _ _ e) as (ci & g1 & es' & _ & cv & _).
    rewrite es in es'. injection es' as <- _.
    apply Forall_forall. intros sq Hsq.
    assert (In (Fg.isCurved sq) (map Fg.isCurved fg)) as Hc by (now apply in_map).
    rewrite cv in Hc. apply in_map_iff in Hc. destruct Hc as (j & ej & _).
    rewrite <- ej. reflexivity.
Qed.

(** X5 at a percentage of zero with the default dimensions. *)
Lemma layout_without_sampling_witness :
  let p := mkProps 12 20 0 8 24 40 3 in
  let g := mkRng (tapeOf []) 0 in
  ((curvedPercentage p <= 0)%Z \/ rows p * cols p = 0) /\
  exists fg bg,
    Layout.generate 0 p g
    = (Some (fg, bg),
       mkRng (tape g)
         (cursor g + rows p * cols p + backgroundRows p * backgroundCols p)) /\
    Forall (fun sq => Fg.isCurved sq = false) fg.
Proof.
  intros p g.
  assert ((curvedPercentage p <= 0)%Z \/ rows p * cols p = 0) as H
    by (left; simpl; lia).
  split; [exact H|]. exact (layout_without_sampling p 0 g H).
Defined.

(** X6.  In a layout the effect returns, the cell at position
    [r * cols + c] of the array is the cell of row r and column c, and it is
    curved exactly when the sampling loop drew that row-major index. *)
Theorem curved_by_index (fuel : nat) (p : Props) (g : Rng)
    (fg : list Fg.Square) (bg : list Bg.Square) :
  fst (Layout.generate fuel p g) = Some (fg, bg) ->
  exists curvedIndices,
    fst (Layout.sampleCurved fuel (Layout.totalSquares p) (Layout.curvedCount p) [] g)
    = Some curvedIndices /\
    forall r c sq,
      c < cols p -> nth_error fg (r * cols p + c) = Some sq ->
      Fg.row sq = r /\ Fg.col sq = c /\
      Fg.isCurved sq
      = JSSet.has Z.eq_dec (Z.of_nat (r * cols p + c)) curvedIndices.
Proof.
  intros e.
  destruct (generate_inv _ _ _ _ _ e) as (ci & g1 & es & ids & cv & fa & _).
  exists ci. split; [rewrite es; reflexivity|].
  intros r c sq Hc nth.
  assert (r * cols p + c < rows p * cols p) as inside.
  { assert (r * cols p + c < List.length fg) as H
      by (apply nth_error_Some; rewrite nth; discriminate).
    rewrite <- (length_map Fg.id), ids, grid_ids_length in H. exact H. }
  assert (r < rows p) as Hr by nia.
  pose proof (grid_ids_nth "fg" (cols p) (rows p) 0 r c Hr Hc) as gi.
  rewrite <- ids, nth_error_map, nth in gi. injection gi as gi.
  rewrite Forall_forall in fa.
  rewrite (fa sq (nth_error_In _ _ nth)) in gi. apply cellId_inj in gi.
  split; [tauto|]. split; [tauto|].
  assert (nth_error (map Fg.isCurved fg) (r * cols p + c) = Some (Fg.isCurved sq)) as H
    by (rewrite nth_error_map, nth; reflexivity).
  rewrite cv, nth_error_map, nth_error_seq in H.
  destruct (Nat.ltb_spec (r * cols p + c) (rows p * cols p)); [|lia].
  simpl in H. injection H as H. rewrite <- H. reflexivity.
Qed.

(** X6 at a 2 by 2 grid, half of it curved: the draws hit the indices 0 and
    2, and the cell of row 1 and column 0 is curved. *)
Lemma curved_by_index_witness :
  let p := mkProps 2 2 50 8 1 2 3 in
  let g := mkRng (tapeOf [0; 1 # 2; 3 # 4]%Q) 0 in
  let fg := match fst (Layout.generate 5 p g) with Some r => fst r | None => [] end in
  let bg := match fst (Layout.generate 5 p g) with Some r => snd r | None => [] end in
  fst (Layout.generate 5 p g) = Some (fg, bg) /\
  exists curvedIndices,
    fst (Layout.sampleCurved 5 (Layout.totalSquares p) (Layout.curvedCount p) [] g)
    = Some curvedIndices /\
    forall r c sq,
      c < cols p -> nth_error fg (r * cols p + c) = Some sq ->
      Fg.row sq = r /\ Fg.col sq = c /\
      Fg.isCurved sq
      = JSSet.has Z.eq_dec (Z.of_nat (r * cols p + c)) curvedIndices.
Proof.
  intros p g fg bg.
  assert (fst (Layout.generate 5 p g) = Some (fg, bg)) as e by (vm_compute; reflexivity).
  split; [exact e|]. exact (curved_by_index 5 p g fg bg e).
Defined.

(** ** The deactivation step, draw by draw *)

Lemma delete_absent (x : string) (s : IdSet) : ~ In x s -> delete_id x s = s.
Proof.
  induction s as [|y s IH]; simpl; [reflexivity|]. intros nin.
  destruct (string_dec x y) as [->|ne]; [tauto|]. f_equal. apply IH. tauto.
Qed.

Lemma filter_after_delete (i : string) (rest u : IdSet) :
  filter (fun x => negb (has_id x rest)) (delete_id i u)
  = filter (fun x => negb (has_id x (i :: rest))) u.
Proof.
  induction u as [|y u IH]; simpl; [reflexivity|].
  unfold has_id at 2. cbn [JSSet.has]. fold (has_id y rest).
  destruct (string_dec i y) as [e|ne]; destruct (string_dec y i) as [e'|ne'];
    try congruence; simpl; rewrite IH; reflexivity.
Qed.

Lemma deactivateLoop_all_above (ids : IdSet) :
  forall (prev updated : IdSet) (g : Rng),
    (forall n, above03 (tape g n) = true) ->
    fst (deactivateLoop ids prev updated g)
    = filter (fun x => negb (has_id x ids)) updated.
Proof.
  induction ids as [|i ids IH]; intros prev updated g hi; cbn [deactivateLoop].
  - unfold ret. simpl. induction updated as [|y u IHu]; simpl; [reflexivity|].
    f_equal. exact IHu.
  - destruct (negb (has_id i prev)).
    + rewrite IH by exact hi. apply filter_after_delete.
    + unfold bind, random. rewrite hi. rewrite IH by exact hi.
      apply filter_after_delete.
Qed.

Lemma deactivateLoop_none_above (ids : IdSet) :
  forall (prev : IdSet) (g : Rng),
    (forall n, above03 (tape g n) = false) ->
    fst (deactivateLoop ids prev prev g) = prev.
Proof.
  induction ids as [|i ids IH]; intros prev g lo; cbn [deactivateLoop];
    [reflexivity|].
  destruct (has_id i prev) eqn:E; cbn [negb].
  - unfold bind, random. rewrite lo. apply IH. exact lo.
  - apply (has_false_In string_dec) in E. rewrite (delete_absent i prev E).
    apply IH. exact lo.
Qed.

Lemma deactivateLoop_draws (ids : IdSet) :
  forall (prev updated : IdSet) (g : Rng),
    snd (deactivateLoop ids prev updated g)
    = mkRng (tape g)
        (cursor g + List.length (filter (fun x => has_id x prev) ids)).
Proof.
  induction ids as [|i ids IH]; intros prev updated g; cbn [deactivateLoop filter].
  - unfold ret. simpl. destruct g. simpl. f_equal. lia.
  - destruct (has_id i prev); cbn [negb List.length].
    + unfold bind, random. destruct (above03 _); rewrite IH; simpl; f_equal; lia.
    + apply IH.
Qed.

(** X7.  The deactivation step reads one draw for each id of the snapshot
    that the current set still holds, in the order of the snapshot.  When
    every draw is above 0.3 it removes every id of the snapshot and keeps the
    other ids in their order; when no draw is above 0.3 it returns the
    current set as it is. *)
Theorem deactivate_by_draws (snapshot prev : IdSet) (g : Rng) :
  snd (deactivate snapshot prev g)
  = mkRng (tape g) (cursor g + List.length (filter (fun x => has_id x prev) snapshot)) /\
  ((forall n, above03 (tape g n) = true) ->
   fst (deactivate snapshot prev g) = filter (fun x => negb (has_id x snapshot)) prev) /\
  ((forall n, above03 (tape g n) = false) ->
   fst (deactivate snapshot prev g) = prev).
Proof.
  unfold deactivate. split; [apply deactivateLoop_draws|]. split.
  - apply deactivateLoop_all_above.
  - apply deactivateLoop_none_above.
Qed.

(** X7 with every draw at one half: the ids of the snapshot go, [fg-9-9]
    stays. *)
Lemma deactivate_by_draws_witness :
  let g := mkRng (fun _ => 1 # 2) 0 in
  let snapshot := ["fg-0-0"; "fg-0-1"]%string in
  let prev := ["fg-0-0"; "fg-9-9"; "fg-0-1"]%string in
  (forall n, above03 (tape g n) = true) /\
  fst (deactivate snapshot prev g) = filter (fun x => negb (has_id x snapshot)) prev.
Proof.
  intros g snapshot prev.
  assert (forall n, above03 (tape g n) = true) as hi by (intros n; reflexivity).
  split; [exact hi|].
  exact (proj1 (proj2 (deactivate_by_draws snapshot prev g)) hi).
Defined.

(** ** What a round activates *)

Lemma inactiveRegular_In (squares : list Fg.Square) (active : IdSet) (sq : Fg.Square) :
  In sq (Foreground.inactiveRegular squares active) ->
  In sq squares /\ Fg.isCurved sq = false /\ ~ In (Fg.id sq) active.
Proof.
  unfold Foreground.inactiveRegular, Foreground.inactiveSquares.
  rewrite !filter_In. intros [[Hin act] cur].
  split; [exact Hin|]. split; [now destruct (Fg.isCurved sq)|].
  apply (has_false_In string_dec). unfold has_id in act.
  now destruct (JSSet.has _ _ _).
Qed.

Lemma inactiveCurved_In (squares : list Fg.Square) (active : IdSet) (sq : Fg.Square) :
  In sq (Foreground.inactiveCurved squares active) ->
  In sq squares /\ Fg.isCurved sq = true /\ ~ In (Fg.id sq) active.
Proof.
  unfold Foreground.inactiveCurved, Foreground.inactiveSquares.
  rewrite !filter_In. intros [[Hin act] cur].
  split; [exact Hin|]. split; [exact cur|].
  apply (has_false_In string_dec). unfold has_id in act.
  now destruct (JSSet.has _ _ _).
Qed.

Lemma fg_tick_fresh (p : Props) (squares : list Fg.Square) (active : IdSet) (g : Rng) :
  exists regular curved,
    fst (Foreground.tick p squares active g) = active ++ regular ++ curved /\
    NoDup (regular ++ curved) /\
    (Z.of_nat (List.length regular)
       <= Z.max 0 (Z.of_nat (maxActiveSquares p) - Z.of_nat (JSSet.size active)))%Z /\
    (forall x, In x regular ->
       ~ In x active /\
       exists sq, In sq squares /\ Fg.id sq = x /\ Fg.isCurved sq = false) /\
    (forall x, In x curved ->
       ~ In x active /\
       exists sq, In sq squares /\ Fg.id sq = x /\ Fg.isCurved sq = true).
Proof.
  unfold Foreground.tick. unfold bind.
  destruct (fg_regularPath_spec p (Foreground.inactiveRegular squares active) active g)
    as (regular & e1 & _ & b1 & _ & nd & fr1).
  destruct (Foreground.regularPath _ _ _ _ g) as [s g1]. simpl in e1. subst s.
  destruct (fg_curvedPath_spec (Foreground.inactiveCurved squares active)
              (active ++ regular) g1) as (curved & e2 & b2 & fr2).
  exists regular, curved. rewrite e2, <- app_assoc.
  split; [reflexivity|]. split; [|split; [exact b1|split]].
  - destruct curved as [|x [|y curved]]; [now rewrite app_nil_r| |simpl in b2; lia].
    apply NoDup_app; [exact nd | repeat constructor; simpl; tauto|].
    intros a Ha [ea|[]]. destruct (fr2 x (or_introl eq_refl)) as [nin _].
    apply nin, in_app_iff. rewrite ea. auto.
  - intros x Hx. destruct (fr1 x Hx) as (nin & sq & Hsq & eid).
    split; [exact nin|]. exists sq.
    destruct (inactiveRegular_In _ _ _ Hsq) as (a & b & _). auto.
  - intros x Hx. destruct (fr2 x Hx) as (nin & sq & Hsq & eid).
    split; [intros H; apply nin, in_app_iff; auto|]. exists sq.
    destruct (inactiveCurved_In _ _ _ Hsq) as (a & b & _). auto.
Qed.

(** X8.  The ids a foreground round adds are pairwise different, were not
    active before, and are ids of cells of the layout: of regular cells for
    the ids of the regular path, of curved cells for the id of the curved
    path.  A round never activates an id that matches no cell. *)
Theorem fg_round_fresh_ids (p : Props) (squares : list Fg.Square)
    (active : IdSet) (g : Rng) :
  exists regular curved,
    fst (Foreground.tick p squares active g) = active ++ regular ++ curved /\
    NoDup (regular ++ curved) /\
    (forall x, In x regular ->
       ~ In x active /\
       exists sq, In sq squares /\ Fg.id sq = x /\ Fg.isCurved sq = false) /\
    (forall x, In x curved ->
       ~ In x active /\
       exists sq, In sq squares /\ Fg.id sq = x /\ Fg.isCurved sq = true).
Proof.
  destruct (fg_tick_fresh p squares active g) as (regular & curved & e & nd & _ & r & c).
  exists regular, curved. auto.
Qed.

(** X8 at a grid of one regular and one curved cell, none of them active. *)
Lemma fg_round_fresh_ids_witness :
  let squares := [Fg.mkSquare "fg-0-0" 0 0 false None;
                  Fg.mkSquare "fg-0-1" 0 1 true None] in
  let g := mkRng (tapeOf [2 # 3; 0; 1 # 10; 0]%Q) 0 in
  exists regular curved,
    fst (Foreground.tick defaultProps squares [] g) = [] ++ regular ++ curved /\
    NoDup (regular ++ curved) /\
    (forall x, In x regular ->
       ~ In x [] /\
       exists sq, In sq squares /\ Fg.id sq = x /\ Fg.isCurved sq = false) /\
    (forall x, In x curved ->
       ~ In x [] /\
       exists sq, In sq squares /\ Fg.id sq = x /\ Fg.isCurved sq = true).
Proof.
  intros squares g. exact (fg_round_fresh_ids defaultProps squares [] g).
Defined.

(** X9.  A foreground round makes progress: with draws in [0, 1) and a
    layout of different ids, a round that finds an inactive regular cell
    while the set is below [maxActiveSquares] activates at least one cell. *)
Theorem fg_round_progress (p : Props) (squares : list Fg.Square)
    (active : IdSet) (g : Rng) :
  validRng g -> NoDup (map Fg.id squares) ->
  Foreground.inactiveRegular squares active <> [] ->
  JSSet.size active < maxActiveSquares p ->
  JSSet.size active < JSSet.size (fst (Foreground.tick p squares active g)).
Proof.
  intros v nd ne room.
  pose proof (fg_regularPath_exact p squares active g v nd) as exact.
  destruct (fg_tick_spec p squares active g)
    as (regular & curved & e & er & _).
  rewrite e. rewrite er in exact. unfold JSSet.size in *.
  rewrite !length_app. rewrite length_app in exact.
  pose proof (floorMul_range _ 3 (v (cursor g)) eq_refl) as fr.
  unfold Foreground.numToActivate, JSSet.size in exact.
  destruct (Foreground.inactiveRegular squares active) as [|sq0 l0]; [congruence|].
  cbn [List.length] in exact. lia.
Qed.

(** X9 at a grid of two regular cells, none of them active. *)
Lemma fg_round_progress_witness :
  let squares := [Fg.mkSquare "fg-0-0" 0 0 false None;
                  Fg.mkSquare "fg-0-1" 0 1 false None] in
  let g := mkRng (tapeOf [2 # 3; 1 # 2; 0]%Q) 0 in
  JSSet.size (@nil string)
    < JSSet.size (fst (Foreground.tick defaultProps squares [] g)).
Proof.
  intros squares g.
  assert (validRng g) as v.
  { apply tapeOf_valid. repeat constructor; unfold Qle, Qlt; simpl; lia. }
  assert (NoDup (map Fg.id squares)) as nd.
  { simpl. repeat constructor; simpl; intuition discriminate. }
  assert (Foreground.inactiveRegular squares [] <> []) as ne by (simpl; discriminate).
  assert (JSSet.size (@nil string) < maxActiveSquares defaultProps) as room
    by (simpl; lia).
  exact (fg_round_progress defaultProps squares [] g v nd ne room).
Defined.

Lemma filter_none {A} (f : A -> bool) (l : list A) :
  (forall x, In x l -> f x = false) -> filter f l = [].
Proof.
  induction l as [|y l IH]; intros H; simpl; [reflexivity|].
  rewrite (H y) by (simpl; auto). apply IH. intros x Hx. apply H. simpl. auto.
Qed.

(** X10.  When every cell of a layer is active (or the layer has no cell),
    its round reads no draw.  The foreground round still commits the set and
    queues a deactivation step for it; the background round returns early:
    it commits nothing and queues nothing. *)
Theorem round_with_nothing_inactive (p : Props) (squares : list Fg.Square)
    (bgs : list Bg.Square) (lf lb : Timers.Layer) (g : Rng) :
  (forall sq, In sq squares -> has_id (Fg.id sq) (Timers.active lf) = true) ->
  (forall sq, In sq bgs -> has_id (Bg.id sq) (Timers.active lb) = true) ->
  Timers.intervalLive lf = true ->
  Timers.step (Timers.fgRound p squares) Timers.Tick lf g
  = (Timers.mkLayer (Timers.active lf) true
       (Timers.pending lf ++ [Timers.active lf]), g) /\
  Timers.step (Timers.bgRound p bgs) Timers.Tick lb g = (lb, g).
Proof.
  intros allF allB live. split.
  - cbn [Timers.step]. rewrite live.
    unfold bind, Timers.fgRound, bind, Foreground.tick, bind.
    assert (Foreground.inactiveSquares squares (Timers.active lf) = []) as e.
    { apply filter_none. intros sq Hsq. rewrite (allF sq Hsq). reflexivity. }
    unfold Foreground.inactiveRegular, Foreground.inactiveCurved. rewrite e.
    reflexivity.
  - cbn [Timers.step]. destruct (Timers.intervalLive lb); [|reflexivity].
    unfold bind, Timers.bgRound, Background.tick.
    assert (Background.inactive bgs (Timers.active lb) = []) as e.
    { apply filter_none. intros sq Hsq. rewrite (allB sq Hsq). reflexivity. }
    rewrite e. reflexivity.
Qed.

(** X10 at layers of one cell each, both active. *)
Lemma round_with_nothing_inactive_witness :
  let squares := [Fg.mkSquare "fg-0-0" 0 0 false None] in
  let bgs := [Bg.mkSquare "bg-0-0" 0 0 None] in
  let lf := Timers.mkLayer ["fg-0-0"%string] true [] in
  let lb := Timers.mkLayer ["bg-0-0"%string] true [] in
  let g := mkRng (tapeOf []) 0 in
  Timers.step (Timers.fgRound defaultProps squares) Timers.Tick lf g
  = (Timers.mkLayer ["fg-0-0"%string] true [["fg-0-0"%string]], g) /\
  Timers.step (Timers.bgRound defaultProps bgs) Timers.Tick lb g = (lb, g).
Proof.
  intros squares bgs lf lb g.
  assert (forall sq, In sq squares -> has_id (Fg.id sq) (Timers.active lf) = true) as aF
    by (intros sq [<-|[]]; reflexivity).
  assert (forall sq, In sq bgs -> has_id (Bg.id sq) (Timers.active lb) = true) as aB
    by (intros sq [<-|[]]; reflexivity).
  exact (round_with_nothing_inactive defaultProps squares bgs lf lb g aF aB eq_refl).
Defined.

(** ** The background round, cell by cell *)

Lemma bg_activateLoop_exact (n : nat) :
  forall (l : list Bg.Square) (new : IdSet) (g : Rng),
    validRng g -> NoDup (map Bg.id l) ->
    (forall sq, In sq l -> ~ In (Bg.id sq) new) ->
    JSSet.size (fst (Background.activateLoop n l new g))
    = JSSet.size new + Nat.min n (List.length l).
Proof.
  induction n as [|n IH]; intros l new g v nd out; cbn [Background.activateLoop].
  - unfold ret. simpl. lia.
  - destruct l as [|sq0 l0].
    + unfold ret. simpl. clear. lia.
    + unfold bind, random.
      destruct (splice1_inside
                  (floorMul (tape g (cursor g)) (Z.of_nat (List.length (sq0 :: l0))))
                  (sq0 :: l0)) as (x & l1 & l2 & el & es).
      { apply floorMul_range; [apply v|]. cbn [List.length]. clear. lia. }
      rewrite es. rewrite el in nd, out.
      rewrite map_app in nd. simpl in nd.
      pose proof (NoDup_remove_1 _ _ _ nd) as nd1.
      pose proof (NoDup_remove_2 _ _ _ nd) as nd2.
      rewrite IH.
      * unfold add_id. rewrite add_size_new by (apply out, in_app_iff; simpl; auto).
        rewrite el, !length_app. cbn [List.length]. clear. lia.
      * apply validRng_step, v.
      * rewrite map_app. exact nd1.
      * intros sq Hsq Hin. unfold add_id in Hin. apply add_In in Hin.
        destruct Hin as [e|Hin].
        -- apply nd2. rewrite <- e, <- map_app. now apply in_map.
        -- apply (out sq); [|exact Hin].
           apply in_app_iff in Hsq. apply in_app_iff. simpl. tauto.
Qed.

(** X11.  With draws in [0, 1) and a layout of different ids, a background
    round that finds an inactive cell activates
    min(random integer in [1,2], maxBackgroundActive - |activeIds|, number of
    inactive cells) cells, none when the budget is not positive, and so at
    least one while the set is below the cap. *)
Theorem bg_round_count (p : Props) (bgs : list Bg.Square) (active : IdSet)
    (g : Rng) (s : IdSet) :
  validRng g -> NoDup (map Bg.id bgs) ->
  fst (Background.tick p bgs active g) = Some s ->
  let n := Z.min (floorMul (tape g (cursor g)) 2 + 1)
             (Z.of_nat (maxBackgroundActive p) - Z.of_nat (JSSet.size active)) in
  (1 <= floorMul (tape g (cursor g)) 2 + 1 <= 2)%Z /\
  JSSet.size s
  = JSSet.size active
    + Nat.min (Z.to_nat n) (List.length (Background.inactive bgs active)) /\
  (JSSet.size active < maxBackgroundActive p -> JSSet.size active < JSSet.size s).
Proof.
  intros v nd. unfold Background.tick.
  pose proof (floorMul_range _ 2 (v (cursor g)) eq_refl) as fr.
  destruct (Background.inactive bgs active) as [|sq0 l0] eqn:E; [discriminate|].
  unfold bind, random, ret.
  pose proof (bg_activateLoop_exact
                (Z.to_nat (Background.numToActivate p active (tape g (cursor g))))
                (sq0 :: l0) active {| tape := tape g; cursor := S (cursor g) |}) as H.
  destruct (Background.activateLoop _ (sq0 :: l0) active _) as [s' g2].
  cbn [fst snd] in *. intros [= <-].
  rewrite H.
  - unfold Background.numToActivate.
    split; [lia|]. split; [reflexivity|]. intros room.
    unfold JSSet.size in *. cbn [List.length]. lia.
  - apply validRng_step, v.
  - rewrite <- E. unfold Background.inactive. now apply NoDup_map_filter.
  - intros sq Hsq. rewrite <- E in Hsq. unfold Background.inactive in Hsq.
    rewrite filter_In in Hsq. destruct Hsq as [_ H1].
    apply (has_false_In string_dec). unfold has_id in H1.
    now destruct (JSSet.has _ _ _).
Qed.

(** X11 at a background of one cell: a draw of two activates one cell, the
    only one there is. *)
Lemma bg_round_count_witness :
  let bgs := [Bg.mkSquare "bg-0-0" 0 0 None] in
  let g := mkRng (tapeOf [2 # 3; 0]%Q) 0 in
  validRng g /\ NoDup (map Bg.id bgs) /\
  fst (Background.tick defaultProps bgs [] g) = Some ["bg-0-0"%string] /\
  JSSet.size ["bg-0-0"%string]
  = JSSet.size (@nil string)
    + Nat.min (Z.to_nat (Z.min (floorMul (tape g (cursor g)) 2 + 1)
                           (Z.of_nat (maxBackgroundActive defaultProps)
                            - Z.of_nat (JSSet.size (@nil string)))))
              (List.length (Background.inactive bgs [])).
Proof.
  intros bgs g.
  assert (validRng g) as v.
  { apply tapeOf_valid. repeat constructor; unfold Qle, Qlt; simpl; lia. }
  assert (NoDup (map Bg.id bgs)) as nd by (simpl; repeat constructor; simpl; tauto).
  assert (fst (Background.tick defaultProps bgs [] g) = Some ["bg-0-0"%string]) as e
    by (vm_compute; reflexivity).
  split; [exact v|]. split; [exact nd|]. split; [exact e|].
  exact (proj1 (proj2 (bg_round_count defaultProps bgs [] g _ v nd e))).
Defined.

(** ** Invariants of the timers *)

Lemma run_keeps (P : IdSet -> Prop) (round : IdSet -> M (option IdSet))
    (es : list Timers.Event) :
  (forall a g s, P a -> fst (round a g) = Some s -> P s) ->
  (forall snapshot prev g, P prev -> P (fst (deactivate snapshot prev g))) ->
  forall (l : Timers.Layer) (g : Rng),
    P (Timers.active l) -> P (Timers.active (fst (Timers.run round es l g))).
Proof.
  intros rnd deact. induction es as [|e es IH]; intros l g Pl; cbn [Timers.run];
    [exact Pl|].
  unfold bind.
  assert (P (Timers.active (fst (Timers.step round e l g)))) as H.
  { destruct e; cbn [Timers.step]; [| |exact Pl].
    - destruct (Timers.intervalLive l); [|exact Pl]. unfold bind.
      pose proof (rnd (Timers.active l) g) as K.
      destruct (round (Timers.active l) g) as [[s|] g1]; [|exact Pl].
      exact (K s Pl eq_refl).
    - destruct (Timers.pending l) as [|snapshot rest]; [exact Pl|]. unfold bind.
      pose proof (deact snapshot (Timers.active l) g Pl) as K.
      destruct (deactivate snapshot (Timers.active l) g) as [updated g1].
      exact K. }
  destruct (Timers.step round e l g) as [l1 g1]. apply IH, H.
Qed.

Lemma fgRound_tick (p : Props) (squares : list Fg.Square) (a : IdSet) (g : Rng)
    (s : IdSet) :
  fst (Timers.fgRound p squares a g) = Some s ->
  s = fst (Foreground.tick p squares a g).
Proof.
  unfold Timers.fgRound, bind, ret.
  destruct (Foreground.tick p squares a g) as [s' g1]. simpl. congruence.
Qed.

Lemma fg_run_cells (p : Props) (squares : list Fg.Square) (es : list Timers.Event)
    (g : Rng) :
  let reached :=
    Timers.active (fst (Timers.run (Timers.fgRound p squares) es Timers.mounted g)) in
  NoDup reached /\ incl reached (map Fg.id squares).
Proof.
  apply (run_keeps (fun a => NoDup a /\ incl a (map Fg.id squares))).
  - intros a h s [nd inc] e. apply fgRound_tick in e. subst s.
    split; [apply fg_tick_NoDup, nd|].
    destruct (fg_tick_fresh p squares a h) as (regular & curved & -> & _ & _ & r & c).
    intros x Hx. rewrite !in_app_iff in Hx. destruct Hx as [Hx|[Hx|Hx]].
    + apply inc, Hx.
    + destruct (r x Hx) as (_ & sq & Hsq & <- & _). now apply in_map.
    + destruct (c x Hx) as (_ & sq & Hsq & <- & _). now apply in_map.
  - intros snapshot prev h [nd inc].
    destruct (deactivate_spec snapshot prev h) as (a & _ & _ & d).
    split; [exact (d nd)|]. intros x Hx. apply inc, a, Hx.
  - simpl. split; [constructor | intros x []].
Qed.

Lemma bg_run_cells (p : Props) (bgs : list Bg.Square) (es : list Timers.Event)
    (g : Rng) :
  let reached :=
    Timers.active (fst (Timers.run (Timers.bgRound p bgs) es Timers.mounted g)) in
  NoDup reached /\ incl reached (map Bg.id bgs).
Proof.
  apply (run_keeps (fun a => NoDup a /\ incl a (map Bg.id bgs))).
  - intros a h s [nd inc] e. unfold Timers.bgRound in e.
    split; [exact (bg_tick_NoDup p bgs a h nd s e)|].
    pose proof (bg_tick_spec p bgs a h) as H. rewrite e in H.
    destruct H as (fresh & -> & _ & _ & _ & fr).
    intros x Hx. apply in_app_iff in Hx. destruct Hx as [Hx|Hx]; [apply inc, Hx|].
    destruct (fr x Hx) as (_ & sq & Hsq & <-). apply in_map.
    unfold Background.inactive in Hsq. apply filter_In in Hsq. tauto.
  - intros snapshot prev h [nd inc].
    destruct (deactivate_spec snapshot prev h) as (a & _ & _ & d).
    split; [exact (d nd)|]. intros x Hx. apply inc, a, Hx.
  - simpl. split; [constructor | intros x []].
Qed.

(** X12.  From the mount on, whatever the events and the draws, the active
    set of a layer holds only ids of cells of its layout, each of them once;
    so it never holds more ids than the layout has cells.  This bounds the
    foreground set too, whose cap is loose. *)
Theorem active_ids_are_cells (p : Props) (squares : list Fg.Square)
    (bgs : list Bg.Square) (es : list Timers.Event) (g : Rng) :
  let fgActive :=
    Timers.active (fst (Timers.run (Timers.fgRound p squares) es Timers.mounted g)) in
  let bgActive :=
    Timers.active (fst (Timers.run (Timers.bgRound p bgs) es Timers.mounted g)) in
  NoDup fgActive /\ incl fgActive (map Fg.id squares) /\
  NoDup bgActive /\ incl bgActive (map Bg.id bgs) /\
  JSSet.size fgActive <= List.length squares /\
  JSSet.size bgActive <= List.length bgs.
Proof.
  intros fgActive bgActive.
  destruct (fg_run_cells p squares es g) as [ndf incf].
  destruct (bg_run_cells p bgs es g) as [ndb incb].
  fold fgActive in ndf, incf. fold bgActive in ndb, incb.
  repeat split; try assumption.
  - rewrite <- (length_map Fg.id squares). apply NoDup_incl_length; assumption.
  - rewrite <- (length_map Bg.id bgs). apply NoDup_incl_length; assumption.
Qed.

Lemma run_dead (round : IdSet -> M (option IdSet)) (es : list Timers.Event) :
  forall (l : Timers.Layer) (g : Rng),
    Timers.intervalLive l = false ->
    let l' := fst (Timers.run round es l g) in
    Timers.intervalLive l' = false /\
    incl (Timers.active l') (Timers.active l) /\
    List.length (Timers.pending l') <= List.length (Timers.pending l) /\
    (Timers.pending l = [] -> Timers.run round es l g = (l, g)).
Proof.
  induction es as [|e es IH]; intros l g dead; cbn [Timers.run].
  - unfold ret. simpl. split; [exact dead|]. split; [apply incl_refl|]. auto.
  - unfold bind. destruct e; cbn [Timers.step].
    + rewrite dead. unfold ret. apply IH, dead.
    + destruct (Timers.pending l) as [|snapshot rest] eqn:E.
      * unfold ret. specialize (IH l g dead). rewrite E in IH. exact IH.
      * unfold bind, ret.
        destruct (deactivate_spec snapshot (Timers.active l) g) as (a & _).
        destruct (deactivate snapshot (Timers.active l) g) as [updated g1].
        cbn [fst] in a.
        destruct (IH (Timers.mkLayer updated (Timers.intervalLive l) rest) g1 dead)
          as (d & inc & len & _).
        cbn [Timers.active Timers.pending] in *.
        split; [exact d|]. split; [intros x Hx; apply a, inc, Hx|].
        split; [simpl; lia | discriminate].
    + unfold ret.
      destruct (IH (Timers.mkLayer (Timers.active l) false (Timers.pending l)) g
                  eq_refl) as (d & inc & len & q).
      cbn [Timers.active Timers.pending] in *.
      split; [exact d|]. split; [exact inc|]. split; [exact len|].
      intros E. rewrite (q E). destruct l as [a i pd]. simpl in dead. subst i.
      reflexivity.
Qed.

(** X13.  What the cleanup does achieve: after teardown the interval stays
    cancelled, no id is ever added to the set again, and each event can only
    use up one of the callbacks that were pending; once none is pending, no
    event changes anything. *)
Theorem after_teardown (round : IdSet -> M (option IdSet)) (l : Timers.Layer)
    (es : list Timers.Event) (g g' : Rng) :
  let torn := fst (Timers.step round Timers.Teardown l g) in
  let later := fst (Timers.run round es torn g') in
  Timers.intervalLive later = false /\
  incl (Timers.active later) (Timers.active l) /\
  List.length (Timers.pending later) <= List.length (Timers.pending l) /\
  (Timers.pending l = [] -> Timers.run round es torn g' = (torn, g')).
Proof.
  intros torn later.
  exact (run_dead round es torn g' eq_refl).
Qed.

(** X13 at a layer with no pending callback. *)
Lemma after_teardown_witness :
  let round := Timers.fgRound defaultProps [Fg.mkSquare "fg-0-0" 0 0 false None] in
  let l := Timers.mkLayer ["fg-0-0"%string] true [] in
  let g := mkRng (tapeOf []) 0 in
  let torn := fst (Timers.step round Timers.Teardown l g) in
  Timers.pending l = [] /\
  Timers.run round [Timers.Tick; Timers.Timeout; Timers.Tick] torn g = (torn, g).
Proof.
  intros round l g torn.
  assert (Timers.pending l = []) as e by reflexivity.
  split; [exact e|].
  exact (proj2 (proj2 (proj2
           (after_teardown round l [Timers.Tick; Timers.Timeout; Timers.Tick] g g))) e).
Defined.

(** ** The renderer over the reachable states *)

Lemma overlays_length (squares : list Fg.Square) (active : IdSet) :
  List.length (View.overlays (View.foreground squares active))
  = List.length (filter (Render.fgIsActive active) squares).
Proof.
  unfold View.overlays, View.foreground.
  induction squares as [|sq l IH]; simpl; [reflexivity|].
  rewrite length_app, IH. destruct (Render.fgIsActive active sq); reflexivity.
Qed.

Lemma lit_le (squares : list Fg.Square) (active : IdSet) :
  NoDup (map Fg.id squares) ->
  List.length (filter (Render.fgIsActive active) squares) <= List.length active.
Proof.
  intros nd. rewrite <- (length_map Fg.id). apply NoDup_incl_length.
  - apply NoDup_map_filter, nd.
  - intros x Hx. apply in_map_iff in Hx. destruct Hx as (sq & <- & Hsq).
    apply filter_In in Hsq. destruct Hsq as [_ act].
    apply (has_In string_dec). exact act.
Qed.

Lemma lit_ge (squares : list Fg.Square) (active : IdSet) :
  NoDup active -> incl active (map Fg.id squares) ->
  List.length active <= List.length (filter (Render.fgIsActive active) squares).
Proof.
  intros nd inc. rewrite <- (length_map Fg.id (filter _ _)).
  apply NoDup_incl_length; [exact nd|].
  intros x Hx. pose proof (inc x Hx) as H. apply in_map_iff in H.
  destruct H as (sq & <- & Hsq). apply in_map, filter_In. split; [exact Hsq|].
  apply (has_In string_dec). exact Hx.
Qed.

(** X14.  For a layout of different ids the renderer draws at most one
    overlay per id of the active set (a stale id that matches no cell draws
    none), and over the states reached from the mount it draws exactly as
    many overlays as the active set has ids. *)
Theorem lit_tiles_count (p : Props) (squares : list Fg.Square) :
  NoDup (map Fg.id squares) ->
  (forall active,
     List.length (View.overlays (View.foreground squares active))
       <= JSSet.size active) /\
  (forall es g,
     let reached :=
       Timers.active (fst (Timers.run (Timers.fgRound p squares) es Timers.mounted g)) in
     List.length (View.overlays (View.foreground squares reached))
     = JSSet.size reached).
Proof.
  intros nd. split.
  - intros active. rewrite overlays_length. apply lit_le, nd.
  - intros es g reached. rewrite overlays_length.
    destruct (fg_run_cells p squares es g) as [nda inc]. fold reached in nda, inc.
    apply Nat.le_antisymm; [apply lit_le, nd | apply lit_ge; assumption].
Qed.

(** X14 at a grid of two cells and a set with one stale id. *)
Lemma lit_tiles_count_witness :
  let squares := [Fg.mkSquare "fg-0-0" 0 0 false None;
                  Fg.mkSquare "fg-0-1" 0 1 false None] in
  NoDup (map Fg.id squares) /\
  List.length (View.overlays
                 (View.foreground squares ["fg-0-1"; "fg-7-7"]%string))
    <= JSSet.size ["fg-0-1"; "fg-7-7"]%string.
Proof.
  intros squares.
  assert (NoDup (map Fg.id squares)) as nd.
  { simpl. repeat constructor; simpl; intuition discriminate. }
  split; [exact nd|].
  exact (proj1 (lit_tiles_count defaultProps squares nd) _).
Defined.

(** ** How far the foreground set can grow *)

Lemma same_id_same_cell {A B} (f : A -> B) (l : list A) (a b : A) :
  NoDup (map f l) -> In a l -> In b l -> f a = f b -> a = b.
Proof.
  induction l as [|x l IH]; simpl; [tauto|]. intros nd Ha Hb e.
  pose proof (NoDup_cons_iff (f x) (map f l)) as [H _]. destruct (H nd) as [nin nd'].
  destruct Ha as [<-|Ha], Hb as [<-|Hb]; auto.
  - exfalso. apply nin. rewrite e. now apply in_map.
  - exfalso. apply nin. rewrite <- e. now apply in_map.
Qed.

Lemma isRegularId_true (squares : list Fg.Square) (x : string) :
  Kind.isRegularId squares x = true
  <-> exists sq, In sq squares /\ Fg.id sq = x /\ Fg.isCurved sq = false.
Proof.
  unfold Kind.isRegularId. rewrite existsb_exists. split.
  - intros (sq & Hsq & H). exists sq. destruct (string_dec x (Fg.id sq)); [|discriminate].
    split; [exact Hsq|]. split; [auto|]. now destruct (Fg.isCurved sq).
  - intros (sq & Hsq & <- & c). exists sq. split; [exact Hsq|].
    destruct (string_dec (Fg.id sq) (Fg.id sq)); [|congruence]. now rewrite c.
Qed.

Lemma fg_run_regular (p : Props) (squares : list Fg.Square) (es : list Timers.Event)
    (g : Rng) :
  NoDup (map Fg.id squares) ->
  let reached :=
    Timers.active (fst (Timers.run (Timers.fgRound p squares) es Timers.mounted g)) in
  NoDup reached /\
  List.length (Kind.regularActive squares reached) <= maxActiveSquares p.
Proof.
  intros nd.
  apply (run_keeps
           (fun a => NoDup a /\
                     List.length (Kind.regularActive squares a) <= maxActiveSquares p)).
  - intros a h s [nda cap] e. apply fgRound_tick in e. subst s.
    split; [apply fg_tick_NoDup, nda|].
    destruct (fg_tick_fresh p squares a h) as (regular & curved & -> & _ & b & _ & c).
    unfold Kind.regularActive in *. rewrite !filter_app, !length_app.
    assert (filter (Kind.isRegularId squares) curved = []) as ->.
    { apply filter_none. intros x Hx. destruct (c x Hx) as (_ & sq & Hsq & eid & cur).
      destruct (Kind.isRegularId squares x) eqn:E; [|reflexivity].
      apply isRegularId_true in E. destruct E as (sq' & Hsq' & eid' & reg).
      assert (sq = sq') as <- by (eapply same_id_same_cell; eauto; congruence).
      congruence. }
    pose proof (filter_length_le (Kind.isRegularId squares) regular).
    pose proof (filter_length_le (Kind.isRegularId squares) a).
    unfold JSSet.size in b. simpl. lia.
  - intros snapshot prev h [nda cap].
    destruct (deactivate_spec snapshot prev h) as (a & _ & _ & d).
    split; [exact (d nda)|].
    etransitivity; [|exact cap]. unfold Kind.regularActive.
    apply NoDup_incl_length; [apply NoDup_filter, d, nda|].
    intros x Hx. apply filter_In in Hx. apply filter_In. split; [apply a|]; tauto.
  - simpl. split; [constructor | lia].
Qed.

Lemma fg_run_excess (p : Props) (squares : list Fg.Square) (es : list Timers.Event)
    (g : Rng) :
  NoDup (map Fg.id squares) ->
  JSSet.size (Timers.active
                (fst (Timers.run (Timers.fgRound p squares) es Timers.mounted g)))
  <= maxActiveSquares p + List.length (Kind.curvedCells squares).
Proof.
  intros nd.
  destruct (fg_run_regular p squares es g nd) as [nda cap].
  destruct (fg_run_cells p squares es g) as [_ inc].
  set (a := Timers.active _) in *.
  unfold JSSet.size. rewrite <- (filter_length (Kind.isRegularId squares) a).
  unfold Kind.regularActive in cap.
  assert (List.length (filter (fun x => negb (Kind.isRegularId squares x)) a)
          <= List.length (Kind.curvedCells squares)) as H; [|lia].
  rewrite <- (length_map Fg.id (Kind.curvedCells squares)).
  apply NoDup_incl_length; [apply NoDup_filter, nda|].
  intros x Hx. apply filter_In in Hx. destruct Hx as [Hx nr].
  pose proof (inc x Hx) as Hc. apply in_map_iff in Hc. destruct Hc as (sq & <- & Hsq).
  apply in_map, filter_In. split; [exact Hsq|].
  destruct (Fg.isCurved sq) eqn:E; [reflexivity|].
  assert (Kind.isRegularId squares (Fg.id sq) = true) as r
    by (apply isRegularId_true; eauto).
  rewrite r in nr. discriminate nr.
Qed.

(** X15.  The loose foreground cap has a hard limit.  For a layout of
    different ids, over every run from the mount the active set holds at most
    [maxActiveSquares] ids of regular cells, so its size exceeds
    [maxActiveSquares] by at most the number of curved cells of the layout:
    for a layout the effect returned for a percentage between 0 and 100, by
    at most floor(rows * cols * curvedPercentage / 100); and with no curved
    cell the cap is never exceeded. *)
Theorem fg_cap_excess (p : Props) (squares : list Fg.Square)
    (es : list Timers.Event) (g : Rng) :
  NoDup (map Fg.id squares) ->
  let reached :=
    Timers.active (fst (Timers.run (Timers.fgRound p squares) es Timers.mounted g)) in
  List.length (Kind.regularActive squares reached) <= maxActiveSquares p /\
  JSSet.size reached <= maxActiveSquares p + List.length (Kind.curvedCells squares) /\
  ((forall sq, In sq squares -> Fg.isCurved sq = false) ->
   JSSet.size reached <= maxActiveSquares p) /\
  (forall fuel g0 bg,
     (0 <= curvedPercentage p <= 100)%Z -> validRng g0 ->
     fst (Layout.generate fuel p g0) = Some (squares, bg) ->
     (Z.of_nat (JSSet.size reached)
        <= Z.of_nat (maxActiveSquares p)
           + Z.of_nat (rows p * cols p) * curvedPercentage p / 100)%Z).
Proof.
  intros nd reached.
  pose proof (fg_run_excess p squares es g nd) as ex. fold reached in ex.
  destruct (fg_run_regular p squares es g nd) as [_ cap]. fold reached in cap.
  split; [exact cap|]. split; [exact ex|]. split.
  - intros none. unfold Kind.curvedCells in ex.
    rewrite (filter_none Fg.isCurved squares none) in ex. simpl in ex. lia.
  - intros fuel g0 bg pc v e.
    destruct (generate_foreground fuel p g0 squares bg pc v e) as (_ & _ & _ & _ & cnt).
    unfold Kind.curvedCells in ex. unfold Layout.curvedCount, Layout.totalSquares in cnt.
    lia.
Qed.

(** X15 at a grid of one regular and two curved cells with a cap of one. *)
Lemma fg_cap_excess_witness :
  let p := mkProps 1 3 67 1 24 40 3 in
  let squares := [Fg.mkSquare "fg-0-0" 0 0 false None;
                  Fg.mkSquare "fg-0-1" 0 1 true None;
                  Fg.mkSquare "fg-0-2" 0 2 true None] in
  let es := [Timers.Tick; Timers.Timeout; Timers.Tick; Timers.Tick] in
  let g := mkRng (tapeOf []) 0 in
  NoDup (map Fg.id squares) /\
  JSSet.size (Timers.active
                (fst (Timers.run (Timers.fgRound p squares) es Timers.mounted g)))
  <= maxActiveSquares p + List.length (Kind.curvedCells squares).
Proof.
  intros p squares es g.
  assert (NoDup (map Fg.id squares)) as nd.
  { simpl. repeat constructor; simpl; intuition discriminate. }
  split; [exact nd|].
  exact (proj1 (proj2 (fg_cap_excess p squares es g nd))).
Defined.

(** X16.  The background renderer draws one element per cell, keyed by the
    id of the cell, a [motion.div] when the id is in the active set.  For a
    layout of different ids it draws at most one [motion.div] per id of the
    set, and over the states reached from the mount exactly as many as the
    set has ids. *)
Theorem background_tiles (p : Props) (bgs : list Bg.Square) :
  NoDup (map Bg.id bgs) ->
  (forall active,
     map View.bgKey (View.background bgs active) = map Bg.id bgs /\
     List.length (View.motions (View.background bgs active)) <= JSSet.size active) /\
  (forall es g,
     let reached :=
       Timers.active (fst (Timers.run (Timers.bgRound p bgs) es Timers.mounted g)) in
     List.length (View.motions (View.background bgs reached)) = JSSet.size reached).
Proof.
  intros nd.
  assert (forall active,
            List.length (View.motions (View.background bgs active))
            = List.length (filter (View.bgIsActive active) bgs)) as len.
  { intros active. unfold View.motions, View.background.
    induction bgs as [|sq l IH]; simpl; [reflexivity|].
    pose proof (NoDup_cons_iff (Bg.id sq) (map Bg.id l)) as [H _].
    destruct (H nd) as [_ nd'].
    destruct (View.bgIsActive active sq); simpl; rewrite (IH nd'); reflexivity. }
  assert (forall active,
            List.length (filter (View.bgIsActive active) bgs) <= List.length active) as le.
  { intros active. rewrite <- (length_map Bg.id). apply NoDup_incl_length.
    - apply NoDup_map_filter, nd.
    - intros x Hx. apply in_map_iff in Hx. destruct Hx as (sq & <- & Hsq).
      apply filter_In in Hsq. destruct Hsq as [_ act].
      apply (has_In string_dec). exact act. }
  split.
  - intros active. split.
    + unfold View.background. rewrite map_map. reflexivity.
    + rewrite len. apply le.
  - intros es g reached. rewrite len.
    destruct (bg_run_cells p bgs es g) as [nda inc]. fold reached in nda, inc.
    apply Nat.le_antisymm; [apply le|].
    rewrite <- (length_map Bg.id (filter _ _)).
    apply NoDup_incl_length; [exact nda|].
    intros x Hx. pose proof (inc x Hx) as H. apply in_map_iff in H.
    destruct H as (sq & <- & Hsq). apply in_map, filter_In. split; [exact Hsq|].
    apply (has_In string_dec). exact Hx.
Qed.

(** X16 at a background of two cells, one of them active. *)
Lemma background_tiles_witness :
  let bgs := [Bg.mkSquare "bg-0-0" 0 0 None; Bg.mkSquare "bg-0-1" 0 1 None] in
  NoDup (map Bg.id bgs) /\
  List.length (View.motions (View.background bgs ["bg-0-1"%string]))
    <= JSSet.size ["bg-0-1"%string].
Proof.
  intros bgs.
  assert (NoDup (map Bg.id bgs)) as nd.
  { simpl. repeat constructor; simpl; intuition discriminate. }
  split; [exact nd|].
  exact (proj2 (proj1 (background_tiles defaultProps bgs nd) _)).
Defined.
